(** * Grid-based solvent-accessible surface area: a model of [sasa.cpp]

    The development embeds the three functions of [src/bpmfwfft/sasa.cpp]
    ([asa_frame], [generate_sphere_points] and [sasa]) and proves the
    properties its specification states about them.

    - C [float] and [double] values are IEEE 754 binary32 and binary64
      numbers, taken from the standard library's [SpecFloat] (round to
      nearest, ties to even); mixed expressions are evaluated the way C++
      evaluates them on a target that keeps [float] in single precision and
      rounds after every operation (no fused multiply-add).
    - C [int] values are integers of [Z] (loop counters that are never
      negative are [nat]).  Signed overflow is undefined in C++, and the
      functions of the model compute sizes, indices and offsets in [Z]: they
      describe the executions in which every [int] stays in range.  The
      32-bit arithmetic of the code is [int_mul] and [int_add]; the
      expressions of the code that can leave the range are given in it
      ([int_total_grid_points], [int_grid_index], [int_out_offset],
      [int_xyz_offset]), and the statements about sizes, cell indices and
      slices carry the hypothesis that they stay in range
      ([grid_fits_int], [run_fits_int]).
    - An array behind a pointer is a [list]; a store outside the array is the
      outcome [Fault].  A read outside the list yields the default value of
      stdpp's total lookup (0.0 for a [float], 1 for an [int]), which stands
      for whatever lies behind the array; statements about the arrays a
      caller passes say how long they are.  [exit(1)] is the outcome
      [Exited]; what is printed before it is left out.
    - [malloc] always succeeds and hands out cells of arbitrary content;
      [free] is left out.  The loop over the frames runs the frames one
      after the other (the build without OpenMP).
    - [cos] and [sin] of libm, and [dot3] of the header [vectorize.h], are
      parameters of the model. *)

From Stdlib Require Import ZArith Bool Lia Sorted.
From Stdlib Require Import Floats.SpecFloat.
From stdpp Require Import base list.

(** ** IEEE 754 arithmetic *)

Definition float := spec_float.
Definition double := spec_float.

#[global] Instance spec_float_inhabited : Inhabited spec_float :=
  populate (S754_zero false).

Definition fadd : float -> float -> float := SFadd 24 128.
Definition fsub : float -> float -> float := SFsub 24 128.
Definition fmul : float -> float -> float := SFmul 24 128.
Definition fdiv : float -> float -> float := SFdiv 24 128.
Definition flt : float -> float -> bool := SFltb.

Definition dadd : double -> double -> double := SFadd 53 1024.
Definition dsub : double -> double -> double := SFsub 53 1024.
Definition dmul : double -> double -> double := SFmul 53 1024.
Definition ddiv : double -> double -> double := SFdiv 53 1024.
Definition dsqrt : double -> double := SFsqrt 53 1024.

(** Conversions: [int] to [float] and to [double], [double] to [float]
    (rounding) and [float] to [double] (exact). *)
Definition f_of_Z (i : Z) : float := binary_normalize 24 128 i 0 false.
Definition d_of_Z (i : Z) : double := binary_normalize 53 1024 i 0 false.

Definition f_of_d (x : double) : float :=
  match x with
  | S754_finite s m e => binary_normalize 24 128 (cond_Zopp s (Zpos m)) e s
  | _ => x
  end.

Definition d_of_f (x : float) : double :=
  match x with
  | S754_finite s m e => binary_normalize 53 1024 (cond_Zopp s (Zpos m)) e s
  | _ => x
  end.

(** [roundf]: the nearest integral value, halfway cases away from zero. *)
Definition froundf (x : float) : float :=
  match x with
  | S754_finite s m e =>
      if (0 <=? e)%Z then x
      else binary_normalize 24 128
             (cond_Zopp s ((2 * Zpos m + 2 ^ (- e)) / 2 ^ (1 - e))%Z) 0 s
  | _ => x
  end.

Definition int_min : Z := (- 2 ^ 31)%Z.
Definition int_max : Z := (2 ^ 31 - 1)%Z.

(** An [int] has 32 bits.  A product or a sum that leaves the range is
    undefined in C++; the compiled code wraps it around (two's complement),
    and that is the value of [int_mul] and [int_add].  Inside the range they
    are the product and the sum of [Z]. *)
Definition fits_int (z : Z) : Prop := (int_min <= z <= int_max)%Z.

Definition int_wrap (z : Z) : Z := ((z - int_min) mod 2 ^ 32 + int_min)%Z.

Definition int_mul (a b : Z) : Z := int_wrap (a * b).
Definition int_add (a b : Z) : Z := int_wrap (a + b).

(** The cast [(int)x] truncates toward zero.  Where the truncated value does
    not fit an [int] (or [x] is not finite) C++ leaves the cast undefined;
    the model returns what the x86-64 conversion instruction returns. *)
Definition int_of_float (x : float) : Z :=
  match x with
  | S754_zero _ => 0%Z
  | S754_finite s m e =>
      let t := cond_Zopp s (if (0 <=? e)%Z then Zpos m * 2 ^ e
                            else Zpos m / 2 ^ (- e))%Z in
      if (int_min <=? t)%Z && (t <=? int_max)%Z then t else int_min
  | _ => int_min
  end.

(** Literals. *)
Definition f_zero : float := S754_zero false.                  (* 0.0f *)
Definition f_four : float := f_of_Z 4.                         (* 4.0f *)
Definition f_1e_10 : float := S754_finite false 14411519 (-57). (* 1e-10f *)
Definition M_PI : double := S754_finite false 7074237752028440 (-51).

#[global] Arguments fadd : simpl never.
#[global] Arguments fsub : simpl never.
#[global] Arguments fmul : simpl never.
#[global] Arguments fdiv : simpl never.
#[global] Arguments flt : simpl never.
#[global] Arguments dadd : simpl never.
#[global] Arguments dsub : simpl never.
#[global] Arguments dmul : simpl never.
#[global] Arguments ddiv : simpl never.
#[global] Arguments dsqrt : simpl never.
#[global] Arguments f_of_Z : simpl never.
#[global] Arguments d_of_Z : simpl never.
#[global] Arguments f_of_d : simpl never.
#[global] Arguments d_of_f : simpl never.
#[global] Arguments froundf : simpl never.
#[global] Arguments int_of_float : simpl never.

(** ** Four-lane vectors

    [vectorize.h] is not part of the sources.  [fvec4] holds four floats and
    its subtraction works lane by lane; [dot3], whose order of summation
    depends on the header, stays a parameter of the model. *)

Record fvec4 := Fvec4 { v0 : float; v1 : float; v2 : float; v3 : float }.

Definition vsub (a b : fvec4) : fvec4 :=
  Fvec4 (fsub (v0 a) (v0 b)) (fsub (v1 a) (v1 b))
        (fsub (v2 a) (v2 b)) (fsub (v3 a) (v3 b)).

(** ** Outcomes of a run *)

Inductive buffer :=
  | NeighborIndices | CenteredSpherePoints | OutGrid | SpherePoints.

#[global] Instance buffer_eq_dec : EqDecision buffer.
Proof. solve_decision. Defined.

Inductive outcome (A : Type) :=
  | Done (a : A)        (* the call returns *)
  | Exited              (* the process ends through [exit(1)] *)
  | Fault (b : buffer). (* a store outside the buffer [b] *)
Arguments Done {A} a.
Arguments Exited {A}.
Arguments Fault {A} b.

#[global] Instance outcome_ret : MRet outcome := fun A a => Done a.
#[global] Instance outcome_bind : MBind outcome := fun A B f m =>
  match m with
  | Done a => f a
  | Exited => Exited
  | Fault b => Fault b
  end.

#[global] Instance outcome_fmap : FMap outcome := fun A B f m =>
  match m with
  | Done a => Done (f a)
  | Exited => Exited
  | Fault b => Fault b
  end.

(** [buf[i] = v] *)
Definition store {A} (b : buffer) (buf : list A) (i : nat) (v : A)
  : outcome (list A) :=
  if decide (i < length buf) then Done (<[i := v]> buf) else Fault b.

Definition store_z {A} (b : buffer) (buf : list A) (i : Z) (v : A)
  : outcome (list A) :=
  if decide (0 <= i)%Z then store b buf (Z.to_nat i) v else Fault b.

(** [for (int i = 0; i < n; i++) body], the loop state threaded through. *)
Fixpoint for_loop {S} (body : nat -> S -> outcome S) (idxs : list nat) (s : S)
  : outcome S :=
  match idxs with
  | [] => Done s
  | i :: idxs' => s' ← body i s; for_loop body idxs' s'
  end.

Definition for_range {S} (n : nat) (body : nat -> S -> outcome S) (s : S)
  : outcome S :=
  for_loop body (seq 0 n) s.

(** ** The program *)

Section Program.

Variable dot3 : fvec4 -> fvec4 -> float.
Variables cos sin : double -> double.

#[local] Set Default Proof Using "Type".

(** [tauto] on the hypotheses of the lemma at hand alone. *)
Ltac taut := try clear cos sin; tauto.

(** [fvec4(a[3*i], a[3*i+1], a[3*i+2], 0)] *)
Definition load3 (a : list float) (i : nat) : fvec4 :=
  Fvec4 (a !!! (3 * i)) (a !!! (3 * i + 1)) (a !!! (3 * i + 2)) (f_of_Z 0).

(** *** [asa_frame] *)

(** Lines 70-92, one iteration of the scan for the atoms close to atom [i];
    the state is the buffer [neighbor_indices] and [n_neighbor_indices]. *)
Definition neighbor_body (frame atom_radii : list float) (i : nat)
    (atom_radius_i : float) (r_i : fvec4) (j : nat) (st : list Z * nat)
  : outcome (list Z * nat) :=
  let '(neighbor_indices, n_neighbor_indices) := st in
  if decide (i = j) then Done st
  else
    let r_j := load3 frame j in
    let r_ij := vsub r_i r_j in
    let atom_radius_j := atom_radii !!! j in
    let radius_cutoff := fadd atom_radius_i atom_radius_j in
    let radius_cutoff2 := fmul radius_cutoff radius_cutoff in
    let r2 := dot3 r_ij r_ij in
    st' ← (if flt r2 radius_cutoff2
           then nb ← store NeighborIndices neighbor_indices
                        n_neighbor_indices (Z.of_nat j);
                Done (nb, S n_neighbor_indices)
           else Done st);
    if flt r2 f_1e_10 then Exited else Done st'.

(** Lines 95-99, centering one sphere point on atom [i]. *)
Definition center_body (frame sphere_points : list float) (i : nat)
    (atom_radius_i : float) (j : nat) (centered_sphere_points : list float)
  : outcome (list float) :=
  c ← store CenteredSpherePoints centered_sphere_points (3 * j)
        (fadd (frame !!! (3 * i)) (fmul atom_radius_i (sphere_points !!! (3 * j))));
  c ← store CenteredSpherePoints c (3 * j + 1)
        (fadd (frame !!! (3 * i + 1))
              (fmul atom_radius_i (sphere_points !!! (3 * j + 1))));
  store CenteredSpherePoints c (3 * j + 2)
        (fadd (frame !!! (3 * i + 2))
              (fmul atom_radius_i (sphere_points !!! (3 * j + 2)))).

(** Lines 111-116, the test of a point against the neighbour stored at
    position [k_prime]. *)
Definition blocked (frame atom_radii : list float) (neighbor_indices : list Z)
    (r_j : fvec4) (k_prime : nat) : bool :=
  let r := atom_radii !!! Z.to_nat (neighbor_indices !!! k_prime) in
  let index := Z.to_nat (neighbor_indices !!! k_prime) in
  let r_jk := vsub r_j (load3 frame index) in
  flt (dot3 r_jk r_jk) (fmul r r).

(** Lines 110-121: [k] runs from [k_closest_neighbor] up to
    [n_neighbor_indices + k_closest_neighbor], and the loop is left at the
    first [k] whose neighbour [k % n_neighbor_indices] blocks the point. *)
Definition blocking_k (frame atom_radii : list float) (neighbor_indices : list Z)
    (n_neighbor_indices : nat) (r_j : fvec4) (k_closest_neighbor : nat)
  : option nat :=
  List.find
    (fun k => blocked frame atom_radii neighbor_indices r_j
                (k mod n_neighbor_indices))
    (seq k_closest_neighbor n_neighbor_indices).

(** Lines 125-132, the voxel of a point. *)
Definition voxel_coord (c grid_spacing : float) : Z :=
  let x := fmul (froundf (fdiv c grid_spacing)) grid_spacing in
  int_of_float (fdiv x grid_spacing).

Definition in_bounds (counts : list Z) (ix iy iz : Z) : bool :=
  (0 <=? ix)%Z && (ix <? counts !!! 0%nat)%Z &&
  (0 <=? iy)%Z && (iy <? counts !!! 1%nat)%Z &&
  (0 <=? iz)%Z && (iz <? counts !!! 2%nat)%Z.

(** Lines 123-145, the branch of an accessible point.  [grid_index] is
    taken in [Z]; the 32-bit value of line 137 is [int_grid_index], which
    is the same number on every grid whose size fits an [int] (lemma
    [int_grid_index_fits]) and wraps around on larger ones. *)
Definition deposit (counts : list Z) (grid_spacing constant atom_radius_i : float)
    (r_j : fvec4) (out_grid : list float) : outcome (list float) :=
  let ix := voxel_coord (v0 r_j) grid_spacing in
  let iy := voxel_coord (v1 r_j) grid_spacing in
  let iz := voxel_coord (v2 r_j) grid_spacing in
  if in_bounds counts ix iy iz then
    let grid_index :=
      (iz * counts !!! 1%nat * counts !!! 0%nat + iy * counts !!! 0%nat + ix)%Z
    in
    let value := fmul (fmul constant atom_radius_i) atom_radius_i in
    store_z OutGrid out_grid grid_index
            (fadd (out_grid !!! Z.to_nat grid_index) value)
  else Done out_grid.

(** Lines 103-146, one sphere point; the state is [k_closest_neighbor] and
    the grid. *)
Definition point_body (frame atom_radii : list float) (neighbor_indices : list Z)
    (n_neighbor_indices : nat) (centered_sphere_points : list float)
    (counts : list Z) (grid_spacing constant atom_radius_i : float)
    (j : nat) (st : nat * list float) : outcome (nat * list float) :=
  let '(k_closest_neighbor, out_grid) := st in
  let r_j := load3 centered_sphere_points j in
  match blocking_k frame atom_radii neighbor_indices n_neighbor_indices r_j
                   k_closest_neighbor with
  | Some k => Done (k, out_grid)
  | None =>
      g ← deposit counts grid_spacing constant atom_radius_i r_j out_grid;
      Done (k_closest_neighbor, g)
  end.

(** Lines 59-147, one atom; the state is the two work buffers and the grid. *)
Definition atom_body (frame atom_radii sphere_points : list float)
    (n_atoms n_sphere_points : Z) (atom_selection_mask counts : list Z)
    (grid_spacing constant : float)
    (i : nat) (st : list Z * list float * list float)
  : outcome (list Z * list float * list float) :=
  let '(neighbor_indices, centered_sphere_points, out_grid) := st in
  let in_selection := atom_selection_mask !!! i in
  if decide (in_selection = 0%Z) then Done st
  else
    let atom_radius_i := atom_radii !!! i in
    let r_i := load3 frame i in
    '(neighbor_indices, n_neighbor_indices) ←
      for_range (Z.to_nat n_atoms)
        (neighbor_body frame atom_radii i atom_radius_i r_i)
        (neighbor_indices, 0);
    centered_sphere_points ←
      for_range (Z.to_nat n_sphere_points)
        (center_body frame sphere_points i atom_radius_i)
        centered_sphere_points;
    '(_, out_grid) ←
      for_range (Z.to_nat n_sphere_points)
        (point_body frame atom_radii neighbor_indices n_neighbor_indices
           centered_sphere_points counts grid_spacing constant atom_radius_i)
        (0, out_grid);
    Done (neighbor_indices, centered_sphere_points, out_grid).

(** [counts[0] * counts[1] * counts[2]], taken in [Z]; the 32-bit value of
    lines 50 and 200 is [int_total_grid_points], which is the same number
    when the products fit an [int] (lemma [int_total_grid_points_fits]). *)
Definition total_grid_points (counts : list Z) : Z :=
  (counts !!! 0%nat * counts !!! 1%nat * counts !!! 2%nat)%Z.

(** [constant = 4.0f * M_PI / n_sphere_points], computed in double. *)
Definition area_constant (n_sphere_points : Z) : float :=
  f_of_d (ddiv (dmul (d_of_f f_four) M_PI) (d_of_Z n_sphere_points)).

Definition asa_frame (frame : list float) (n_atoms : Z) (atom_radii : list float)
    (sphere_points : list float) (n_sphere_points : Z)
    (neighbor_indices : list Z) (centered_sphere_points : list float)
    (atom_selection_mask : list Z) (out_grid : list float)
    (counts : list Z) (grid_spacing : float)
  : outcome (list Z * list float * list float) :=
  out_grid ← for_range (Z.to_nat (total_grid_points counts))
                (fun i g => store OutGrid g i f_zero) out_grid;
  let constant := area_constant n_sphere_points in
  for_range (Z.to_nat n_atoms)
    (atom_body frame atom_radii sphere_points n_atoms n_sphere_points
       atom_selection_mask counts grid_spacing constant)
    (neighbor_indices, centered_sphere_points, out_grid).

(** *** [generate_sphere_points] *)

(** Lines 173-179, the body of the loop, for the value [i] of the counter. *)
Definition sphere_y (offset : float) (i : Z) : float :=
  f_of_d (dadd (dsub (d_of_f (fmul (f_of_Z i) offset)) (d_of_Z 1))
               (ddiv (d_of_f offset) (d_of_Z 2))).

Definition sphere_r (y : float) : float :=
  f_of_d (dsqrt (dsub (d_of_Z 1) (d_of_f (fmul y y)))).

Definition sphere_phi (inc : float) (i : Z) : float :=
  fmul (f_of_Z i) inc.

Definition sphere_body (inc offset : float) (i : nat)
    (sphere_points : list float) : outcome (list float) :=
  let y := sphere_y offset (Z.of_nat i) in
  let r := sphere_r y in
  let phi := sphere_phi inc (Z.of_nat i) in
  sp ← store SpherePoints sphere_points (3 * i)
         (f_of_d (dmul (cos (d_of_f phi)) (d_of_f r)));
  sp ← store SpherePoints sp (3 * i + 1) y;
  store SpherePoints sp (3 * i + 2)
        (f_of_d (dmul (sin (d_of_f phi)) (d_of_f r))).

Definition sphere_inc : float :=
  f_of_d (dmul M_PI (dsub (d_of_Z 3) (dsqrt (d_of_Z 5)))).

Definition sphere_offset (n_points : Z) : float :=
  f_of_d (ddiv (d_of_Z 2) (d_of_Z n_points)).

Definition generate_sphere_points (sphere_points : list float) (n_points : Z)
  : outcome (list float) :=
  let inc := sphere_inc in
  let offset := sphere_offset n_points in
  for_range (Z.to_nat n_points) (sphere_body inc offset) sphere_points.

(** *** [sasa] *)

(** [malloc] returns [n] cells of indeterminate content, here [junk]. *)
Definition malloc {A} (junk : nat -> A) (n : Z) : list A :=
  junk <$> seq 0 (Z.to_nat n).

(** [xyzlist + i*n_atoms*3], the offset taken in [Z]; the 32-bit value of
    line 215 is [int_xyz_offset] (lemma [int_xyz_offset_fits]). *)
Definition frame_at (xyzlist : list float) (n_atoms : Z) (i : nat) : list float :=
  drop (Z.to_nat (Z.of_nat i * n_atoms * 3)) xyzlist.

(** Lines 215-217, one frame.  The callee sees [xyzlist] and [out] from the
    offsets the pointers carry; of [out] it is handed the
    [total_grid_points] cells of the frame, and what it leaves there is put
    back in place.  The offset [i*total_grid_points] is taken in [Z]; the
    32-bit value of line 217 is [int_out_offset] (lemma
    [int_out_offset_fits]). *)
Definition frame_body (n_atoms : Z) (xyzlist atom_radii sphere_points : list float)
    (n_sphere_points : Z) (atom_selection_mask counts : list Z)
    (grid_spacing : float) (total_grid_points : Z)
    (i : nat) (st : list Z * list float * list float)
  : outcome (list Z * list float * list float) :=
  let '(wb1, wb2, out) := st in
  let frame := frame_at xyzlist n_atoms i in
  let off := Z.to_nat (Z.of_nat i * total_grid_points) in
  let len := Z.to_nat total_grid_points in
  '(wb1, wb2, g) ←
    asa_frame frame n_atoms atom_radii sphere_points n_sphere_points wb1 wb2
              atom_selection_mask (take len (drop off out)) counts grid_spacing;
  Done (wb1, wb2, take off out ++ g ++ drop (off + len) out).

Definition sasa (n_frames n_atoms : Z) (xyzlist atom_radii : list float)
    (n_sphere_points : Z) (atom_selection_mask : list Z) (out : list float)
    (counts : list Z) (grid_spacing : float)
    (junk_int : nat -> Z) (junk_float : nat -> float)
  : outcome (list float) :=
  sphere_points ←
    generate_sphere_points (malloc junk_float (n_sphere_points * 3))
                           n_sphere_points;
  let total_grid_points := total_grid_points counts in
  let wb1 := malloc junk_int n_atoms in
  let wb2 := malloc junk_float (3 * n_sphere_points) in
  '(_, _, out) ←
    for_range (Z.to_nat n_frames)
      (frame_body n_atoms xyzlist atom_radii sphere_points n_sphere_points
                  atom_selection_mask counts grid_spacing total_grid_points)
      (wb1, wb2, out);
  Done out.

(** *** The [int] arithmetic of sizes, cell indices and offsets

    [total_grid_points], [deposit], [frame_at] and [frame_body] above take
    the size of the grid, the index of a cell and the offsets of a frame in
    [Z].  The definitions below are the same expressions in the 32-bit
    arithmetic of the code. *)

(** Lines 50 and 200, [counts[0] * counts[1] * counts[2]]. *)
Definition int_total_grid_points (counts : list Z) : Z :=
  int_mul (int_mul (counts !!! 0%nat) (counts !!! 1%nat)) (counts !!! 2%nat).

(** Line 137, [iz * counts[1] * counts[0] + iy * counts[0] + ix]. *)
Definition int_grid_index (counts : list Z) (ix iy iz : Z) : Z :=
  int_add (int_add (int_mul (int_mul iz (counts !!! 1%nat)) (counts !!! 0%nat))
                   (int_mul iy (counts !!! 0%nat)))
          ix.

(** Line 217, [i*total_grid_points]. *)
Definition int_out_offset (i : nat) (counts : list Z) : Z :=
  int_mul (Z.of_nat i) (int_total_grid_points counts).

(** Line 215, [i*n_atoms*3]. *)
Definition int_xyz_offset (i : nat) (n_atoms : Z) : Z :=
  int_mul (int_mul (Z.of_nat i) n_atoms) 3.

(** No product of lines 50 and 137 leaves the range of [int]. *)
Definition grid_fits_int (counts : list Z) : Prop :=
  fits_int (counts !!! 0%nat * counts !!! 1%nat)%Z /\
  fits_int (counts !!! 0%nat * counts !!! 1%nat * counts !!! 2%nat)%Z.

(** No index into the coordinates, the sphere points or the neighbour list
    leaves the range in a call of [asa_frame]: lines 66-115 index with
    [3*i+2], [3*j+2] and [k] up to [n_neighbor_indices + k_closest_neighbor]. *)
Definition frame_fits_int (n_atoms n_sphere_points : Z) (counts : list Z)
  : Prop :=
  grid_fits_int counts /\
  fits_int (3 * n_atoms)%Z /\ fits_int (3 * n_sphere_points)%Z /\
  fits_int ((n_sphere_points + 1) * n_atoms)%Z.

(** Nor do the offsets of the frames and the sizes of the buffers in a call
    of [sasa] (lines 196, 209, 215 and 217). *)
Definition run_fits_int (n_frames n_atoms n_sphere_points : Z)
    (counts : list Z) : Prop :=
  frame_fits_int n_atoms n_sphere_points counts /\
  fits_int (n_frames * total_grid_points counts)%Z /\
  fits_int (n_frames * n_atoms)%Z /\
  fits_int (n_frames * n_atoms * 3)%Z.

(** ** What the loops compute

    The definitions of this part describe the results of the loops above
    without their buffers and counters; the lemmas further down relate the
    two. *)

(** Squared distance of the atoms [i] and [j], as line 81 computes it. *)
Definition r2 (frame : list float) (i j : nat) : float :=
  let r_ij := vsub (load3 frame i) (load3 frame j) in
  dot3 r_ij r_ij.

Definition within_cutoff (frame atom_radii : list float) (i j : nat) : bool :=
  let radius_cutoff := fadd (atom_radii !!! i) (atom_radii !!! j) in
  flt (r2 frame i j) (fmul radius_cutoff radius_cutoff).

Definition coincident (frame : list float) (i j : nat) : bool :=
  flt (r2 frame i j) f_1e_10.

(** The atoms close to atom [i], in ascending order. *)
Definition neighbors (frame atom_radii : list float) (n_atoms : Z) (i : nat)
  : list nat :=
  filter (fun j => i <> j /\ within_cutoff frame atom_radii i j)
         (seq 0 (Z.to_nat n_atoms)).

(** The scan of atom [i] meets an atom on top of it. *)
Definition scan_aborts (frame : list float) (n_atoms : Z) (i : nat) : Prop :=
  Exists (fun j => i <> j /\ coincident frame i j) (seq 0 (Z.to_nat n_atoms)).

Definition selected (atom_selection_mask : list Z) (i : nat) : Prop :=
  atom_selection_mask !!! i <> 0%Z.

Definition frame_aborts (frame : list float) (n_atoms : Z)
    (atom_selection_mask : list Z) : Prop :=
  Exists (fun i => selected atom_selection_mask i /\ scan_aborts frame n_atoms i)
         (seq 0 (Z.to_nat n_atoms)).

(** Sphere point [j] scaled by the radius of atom [i] and moved to its
    centre. *)
Definition centered (frame sphere_points : list float) (i j : nat)
    (atom_radius_i : float) : fvec4 :=
  Fvec4 (fadd (frame !!! (3 * i)) (fmul atom_radius_i (sphere_points !!! (3 * j))))
        (fadd (frame !!! (3 * i + 1))
              (fmul atom_radius_i (sphere_points !!! (3 * j + 1))))
        (fadd (frame !!! (3 * i + 2))
              (fmul atom_radius_i (sphere_points !!! (3 * j + 2))))
        (f_of_Z 0).

(** The point [p] lies inside the sphere of atom [nb]. *)
Definition occludes (frame atom_radii : list float) (p : fvec4) (nb : nat)
  : bool :=
  let r := atom_radii !!! nb in
  let r_jk := vsub p (load3 frame nb) in
  flt (dot3 r_jk r_jk) (fmul r r).

Definition exposed (frame atom_radii : list float) (nbrs : list nat)
    (p : fvec4) : bool :=
  forallb (fun nb => negb (occludes frame atom_radii p nb)) nbrs.

(** The cell of a point, if the point falls into the grid, with the index
    taken in [Z] as in [deposit] (lemma [voxel_int_grid_index] gives it
    through [int_grid_index]). *)
Definition voxel (counts : list Z) (grid_spacing : float) (p : fvec4)
  : option nat :=
  let ix := voxel_coord (v0 p) grid_spacing in
  let iy := voxel_coord (v1 p) grid_spacing in
  let iz := voxel_coord (v2 p) grid_spacing in
  if in_bounds counts ix iy iz then
    Some (Z.to_nat (iz * counts !!! 1%nat * counts !!! 0%nat
                    + iy * counts !!! 0%nat + ix))
  else None.

(** [out_grid[c] += v] *)
Definition add_at (g : list float) (c : nat) (v : float) : list float :=
  <[c := fadd (g !!! c) v]> g.

Definition deposit_all (g : list float) (cs : list (nat * float)) : list float :=
  foldl (fun g cv => add_at g cv.1 cv.2) g cs.

Definition point_value (constant atom_radius_i : float) : float :=
  fmul (fmul constant atom_radius_i) atom_radius_i.

(** What one sphere point of atom [i] adds to the grid: its cell and the
    value, or nothing. *)
Definition point_contribution (frame atom_radii sphere_points : list float)
    (n_atoms : Z) (counts : list Z) (grid_spacing constant : float)
    (i j : nat) : list (nat * float) :=
  let atom_radius_i := atom_radii !!! i in
  let p := centered frame sphere_points i j atom_radius_i in
  if exposed frame atom_radii (neighbors frame atom_radii n_atoms i) p then
    match voxel counts grid_spacing p with
    | Some c => [(c, point_value constant atom_radius_i)]
    | None => []
    end
  else [].

Definition atom_contributions (frame atom_radii sphere_points : list float)
    (n_atoms n_sphere_points : Z) (counts : list Z)
    (grid_spacing constant : float) (i : nat) : list (nat * float) :=
  seq 0 (Z.to_nat n_sphere_points) ≫=
    point_contribution frame atom_radii sphere_points n_atoms counts
                       grid_spacing constant i.

Definition frame_contributions (frame atom_radii sphere_points : list float)
    (n_atoms n_sphere_points : Z) (atom_selection_mask counts : list Z)
    (grid_spacing : float) : list (nat * float) :=
  filter (selected atom_selection_mask) (seq 0 (Z.to_nat n_atoms)) ≫=
    atom_contributions frame atom_radii sphere_points n_atoms n_sphere_points
                       counts grid_spacing (area_constant n_sphere_points).

(** The grid of one frame. *)
Definition frame_grid (frame atom_radii sphere_points : list float)
    (n_atoms n_sphere_points : Z) (atom_selection_mask counts : list Z)
    (grid_spacing : float) : list float :=
  deposit_all (replicate (Z.to_nat (total_grid_points counts)) f_zero)
    (frame_contributions frame atom_radii sphere_points n_atoms
       n_sphere_points atom_selection_mask counts grid_spacing).

(** The values a list of contributions sends to the cell [c]. *)
Definition values_at (c : nat) (cs : list (nat * float)) : list float :=
  snd <$> filter (fun cv => cv.1 = c) cs.

(** *** The classification of the sphere points *)

(** Lines 102-121 with the grid left out: [is_accessible] for every point,
    [k_closest_neighbor] carried from one point to the next. *)
Fixpoint classify (frame atom_radii : list float) (neighbor_indices : list Z)
    (n_neighbor_indices : nat) (centered_sphere_points : list float)
    (js : list nat) (k_closest_neighbor : nat) : list bool :=
  match js with
  | [] => []
  | j :: js' =>
      match blocking_k frame atom_radii neighbor_indices n_neighbor_indices
                       (load3 centered_sphere_points j) k_closest_neighbor with
      | Some k =>
          false :: classify frame atom_radii neighbor_indices
                     n_neighbor_indices centered_sphere_points js' k
      | None =>
          true :: classify frame atom_radii neighbor_indices
                    n_neighbor_indices centered_sphere_points js'
                    k_closest_neighbor
      end
  end.

(** The plain scan: every neighbour from position 0 on, no memory. *)
Definition naive_accessible (frame atom_radii : list float)
    (neighbor_indices : list Z) (n_neighbor_indices : nat) (r_j : fvec4)
  : bool :=
  forallb (fun k => negb (blocked frame atom_radii neighbor_indices r_j k))
          (seq 0 n_neighbor_indices).

Definition naive_point_body (frame atom_radii : list float)
    (neighbor_indices : list Z) (n_neighbor_indices : nat)
    (centered_sphere_points : list float)
    (counts : list Z) (grid_spacing constant atom_radius_i : float)
    (j : nat) (out_grid : list float) : outcome (list float) :=
  let r_j := load3 centered_sphere_points j in
  if naive_accessible frame atom_radii neighbor_indices n_neighbor_indices r_j
  then deposit counts grid_spacing constant atom_radius_i r_j out_grid
  else Done out_grid.

(** *** The sphere points and the grids of a run *)

Definition sphere_x (n_points i : Z) : float :=
  let y := sphere_y (sphere_offset n_points) i in
  f_of_d (dmul (cos (d_of_f (sphere_phi sphere_inc i))) (d_of_f (sphere_r y))).

Definition sphere_z (n_points i : Z) : float :=
  let y := sphere_y (sphere_offset n_points) i in
  f_of_d (dmul (sin (d_of_f (sphere_phi sphere_inc i))) (d_of_f (sphere_r y))).

(** The array [generate_sphere_points] fills: point after point, the three
    coordinates of each. *)
Definition sphere_point_set (n_points : Z) : list float :=
  seq 0 (Z.to_nat n_points) ≫= fun i =>
    [sphere_x n_points (Z.of_nat i);
     sphere_y (sphere_offset n_points) (Z.of_nat i);
     sphere_z n_points (Z.of_nat i)].

(** The grids of the frames of a run, one after the other. *)
Definition sasa_grids (n_frames n_atoms : Z) (xyzlist atom_radii : list float)
    (n_sphere_points : Z) (atom_selection_mask counts : list Z)
    (grid_spacing : float) : list float :=
  seq 0 (Z.to_nat n_frames) ≫= fun i =>
    frame_grid (frame_at xyzlist n_atoms i) atom_radii
               (sphere_point_set n_sphere_points) n_atoms n_sphere_points
               atom_selection_mask counts grid_spacing.

Definition sasa_aborts (n_frames n_atoms : Z) (xyzlist : list float)
    (atom_selection_mask : list Z) : Prop :=
  Exists (fun i => frame_aborts (frame_at xyzlist n_atoms i) n_atoms
                                atom_selection_mask)
         (seq 0 (Z.to_nat n_frames)).

(** Two frames that agree on the coordinates of the first [n] atoms. *)
Definition agree (n : nat) (frame frame' : list float) : Prop :=
  forall k, k < 3 * n -> frame !!! k = frame' !!! k.

(** A store outside the buffer [b]. *)
Definition faults_on {A} (b : buffer) (o : outcome A) : bool :=
  match o with
  | Fault b' => bool_decide (b = b')
  | _ => false
  end.

(** An outcome that is no store outside the grid and, when the call
    returns, leaves a state with the property [P]. *)
Definition safe {S} (P : S -> Prop) (o : outcome S) : Prop :=
  match o with
  | Done s => P s
  | Exited => True
  | Fault b => b <> OutGrid
  end.

(** The radius of the specification, [sqrt(max(0, 1 - y*y))], evaluated in
    the precisions of line 174. *)
Definition dmax (a b : double) : double := if flt a b then b else a.

Definition sphere_r_clamped (y : float) : float :=
  f_of_d (dsqrt (dmax (d_of_Z 0) (dsub (d_of_Z 1) (d_of_f (fmul y y))))).

(** *** Instances and inputs for the examples

    An order of summation for [dot3], and [cos] and [sin] as Taylor
    polynomials in double arithmetic, stand for the parameters where an
    example needs them. *)

Definition dot3_in_order (a b : fvec4) : float :=
  fadd (fadd (fmul (v0 a) (v0 b)) (fmul (v1 a) (v1 b))) (fmul (v2 a) (v2 b)).

Fixpoint taylor (terms : nat) (k : Z) (x2 term acc : double) : double :=
  match terms with
  | 0 => acc
  | S terms' =>
      let term' := ddiv (dmul term (SFopp x2)) (d_of_Z ((k + 1) * (k + 2))) in
      taylor terms' (k + 2) x2 term' (dadd acc term')
  end.

Definition cos_taylor (x : double) : double :=
  taylor 40 0 (dmul x x) (d_of_Z 1) (d_of_Z 1).

Definition sin_taylor (x : double) : double :=
  taylor 40 1 (dmul x x) x x.

(** Six sphere points on the axes. *)
Definition axis_points : list float :=
  f_of_Z <$> [1; 0; 0; -1; 0; 0; 0; 1; 0; 0; -1; 0; 0; 0; 1; 0; 0; -1]%Z.

(** Two atoms of radius 1 at distance 1. *)
Definition pair_frame : list float := f_of_Z <$> [1; 1; 1; 2; 1; 1]%Z.


(** Two atoms far from one another. *)
Definition apart_frame : list float := f_of_Z <$> [1; 1; 1; 9; 9; 9]%Z.

Definition unit_radii : list float := [f_of_Z 1; f_of_Z 1].

(** A grid of 3 x 3 x 3 cells that holds values of an earlier use. *)
Definition used_grid : list float := replicate 27 (f_of_Z 7).


(** [apart_frame] with the second atom at another place. *)
Definition moved_frame : list float := f_of_Z <$> [1; 1; 1; 8; 8; 8]%Z.

(** The float nearest 0.7. *)
Definition f_0_7 : float := S754_finite false 11744051 (-24).

(** One atom of radius 1 at (8, 0, 0) and the one sphere point that
    [generate_sphere_points] yields for [n_points = 1]. *)
Definition lone_frame : list float := f_of_Z <$> [8; 0; 0]%Z.
Definition lone_point : list float := f_of_Z <$> [1; 0; 0]%Z.

(** A grid of 2^32 cells, and one of 2^30 cells. *)
Definition huge_counts : list Z := [65536; 65536; 1]%Z.
Definition large_counts : list Z := [1024; 1024; 1024]%Z.

(** ** Loops and stores *)

Lemma bind_done {A B} (f : A -> outcome B) (a : A) : Done a ≫= f = f a.
Proof. reflexivity. Qed.

Lemma for_loop_app {S} (body : nat -> S -> outcome S) l1 l2 s :
  for_loop body (l1 ++ l2) s = s' ← for_loop body l1 s; for_loop body l2 s'.
Proof.
  revert s; induction l1 as [|i l1 IH]; intros s; simpl; [done|].
  destruct (body i s); simpl; auto.
Qed.

Lemma for_range_S {S} n (body : nat -> S -> outcome S) s :
  for_range (Datatypes.S n) body s = s' ← for_range n body s; body n s'.
Proof.
  unfold for_range. rewrite seq_S, for_loop_app. simpl.
  destruct (for_loop body (seq 0 n) s); simpl; [|done..].
  by destruct (body n a).
Qed.

Lemma store_done {A} b (buf : list A) i v :
  i < length buf -> store b buf i v = Done (<[i := v]> buf).
Proof. intros H. unfold store. by rewrite decide_True. Qed.

Lemma store_fault {A} b (buf : list A) i v :
  length buf <= i -> store b buf i v = Fault b.
Proof. intros H. unfold store. rewrite decide_False; [done|lia]. Qed.

(** The first loop of [asa_frame] clears the cells it runs over. *)
Lemma zero_loop (g : list float) n :
  n <= length g ->
  for_range n (fun i g => store OutGrid g i f_zero) g
  = Done (replicate n f_zero ++ drop n g).
Proof.
  induction n as [|n IH]; intros Hn.
  - by rewrite drop_0.
  - rewrite for_range_S, IH by lia. rewrite bind_done.
    rewrite store_done by (rewrite length_app, length_replicate, length_drop; lia).
    f_equal. apply list_eq. intros i.
    destruct (decide (i = n)) as [->|Hne].
    + rewrite list_lookup_insert_eq
        by (rewrite length_app, length_replicate, length_drop; lia).
      rewrite lookup_app_l by (rewrite length_replicate; lia).
      by rewrite lookup_replicate_2 by lia.
    + rewrite list_lookup_insert_ne by done.
      destruct (decide (i < n)).
      * rewrite !lookup_app_l by (rewrite length_replicate; lia).
        by rewrite !lookup_replicate_2 by lia.
      * rewrite !lookup_app_r by (rewrite length_replicate; lia).
        rewrite !length_replicate, !lookup_drop. f_equal. lia.
Qed.

Lemma zero_loop_all (g : list float) :
  for_range (length g) (fun i g => store OutGrid g i f_zero) g
  = Done (replicate (length g) f_zero).
Proof.
  rewrite zero_loop by done. by rewrite drop_ge, app_nil_r by done.
Qed.

(** On a grid with fewer cells than the loop runs over, the loop stores
    outside the grid. *)
Lemma zero_loop_short (g : list float) n :
  length g < n ->
  for_range n (fun i g => store OutGrid g i f_zero) g = Fault OutGrid.
Proof.
  induction n as [|n IH]; intros Hn; [lia|].
  rewrite for_range_S.
  destruct (decide (length g < n)) as [Hlt|Hge].
  - by rewrite IH.
  - rewrite zero_loop by lia. rewrite bind_done.
    apply store_fault. rewrite length_app, length_replicate, length_drop. lia.
Qed.

(** A loop that stores three values per round, at [3*j], [3*j+1] and
    [3*j+2]: the shape of the centering loop and of the loop of
    [generate_sphere_points]. *)
Lemma triple_loop {A} `{!Inhabited A} b (fx fy fz : nat -> A)
    (body : nat -> list A -> outcome (list A)) n (buf : list A) :
  (forall j c, body j c =
     c1 ← store b c (3 * j) (fx j);
     c2 ← store b c1 (3 * j + 1) (fy j);
     store b c2 (3 * j + 2) (fz j)) ->
  3 * n <= length buf ->
  exists buf',
    for_range n body buf = Done buf' /\
    length buf' = length buf /\
    (forall j, j < n ->
       buf' !!! (3 * j) = fx j /\ buf' !!! (3 * j + 1) = fy j /\
       buf' !!! (3 * j + 2) = fz j) /\
    (forall k, 3 * n <= k -> buf' !! k = buf !! k).
Proof.
  intros Hbody. induction n as [|n IH]; intros Hlen.
  - exists buf. repeat split; try done; lia.
  - destruct IH as (buf1 & Hrun & Hlen1 & Hin & Hout); [lia|].
    rewrite for_range_S, Hrun, bind_done, Hbody.
    rewrite store_done, bind_done by lia.
    rewrite store_done, bind_done by (rewrite length_insert; lia).
    rewrite store_done by (rewrite !length_insert; lia).
    eexists; split; [done|]. split; [by rewrite !length_insert|]. split.
    + intros j Hj. destruct (decide (j = n)) as [->|Hne].
      * repeat split.
        -- rewrite !list_lookup_total_insert_ne by lia.
           rewrite list_lookup_total_insert_eq; [done|lia].
        -- rewrite list_lookup_total_insert_ne by lia.
           rewrite list_lookup_total_insert_eq; [done|rewrite length_insert; lia].
        -- rewrite list_lookup_total_insert_eq; [done|rewrite !length_insert; lia].
      * rewrite !list_lookup_total_insert_ne by lia. apply Hin. lia.
    + intros k Hk. rewrite !list_lookup_insert_ne by lia. apply Hout. lia.
Qed.

(** ** The scan for the atoms close to atom [i] *)

Lemma neighbor_body_eq frame atom_radii i j buf cnt :
  neighbor_body frame atom_radii i (atom_radii !!! i) (load3 frame i) j (buf, cnt)
  = if decide (i = j) then Done (buf, cnt)
    else
      st' ← (if within_cutoff frame atom_radii i j
             then nb ← store NeighborIndices buf cnt (Z.of_nat j);
                  Done (nb, S cnt)
             else Done (buf, cnt));
      if coincident frame i j then Exited else Done st'.
Proof. reflexivity. Qed.

Lemma neighbor_loop_exits frame atom_radii i js buf cnt :
  cnt + length js <= length buf ->
  Exists (fun j => i <> j /\ coincident frame i j) js ->
  for_loop (neighbor_body frame atom_radii i (atom_radii !!! i) (load3 frame i))
           js (buf, cnt) = Exited.
Proof.
  revert buf cnt. induction js as [|j js IH]; intros buf cnt Hcap Hex.
  - by apply Exists_nil in Hex.
  - simpl in Hcap. cbn [for_loop]. rewrite neighbor_body_eq.
    destruct (decide (i = j)) as [->|Hij].
    + rewrite bind_done. apply IH; [lia|].
      apply Exists_cons in Hex as [[? _]|?]; done.
    + destruct (coincident frame i j) eqn:Hco.
      * destruct (within_cutoff frame atom_radii i j); [|done].
        by rewrite store_done by lia.
      * apply Exists_cons in Hex as [[_ Hc]|Hex]; [by rewrite Hco in Hc|].
        destruct (within_cutoff frame atom_radii i j).
        -- rewrite store_done by lia. rewrite !bind_done.
           apply IH; [rewrite length_insert; lia|done].
        -- rewrite !bind_done. apply IH; [lia|done].
Qed.

Lemma neighbor_loop_done frame atom_radii i js buf cnt :
  cnt + length js <= length buf ->
  ~ Exists (fun j => i <> j /\ coincident frame i j) js ->
  let nbrs := filter (fun j => i <> j /\ within_cutoff frame atom_radii i j) js in
  exists buf',
    for_loop (neighbor_body frame atom_radii i (atom_radii !!! i) (load3 frame i))
             js (buf, cnt) = Done (buf', cnt + length nbrs) /\
    length buf' = length buf /\
    take (cnt + length nbrs) buf' = take cnt buf ++ (Z.of_nat <$> nbrs).
Proof.
  revert buf cnt. induction js as [|j js IH]; intros buf cnt Hcap Hex nbrs.
  - exists buf. subst nbrs. rewrite filter_nil. simpl.
    rewrite Nat.add_0_r, app_nil_r. done.
  - simpl in Hcap. rewrite Exists_cons in Hex.
    cbn [for_loop]. rewrite neighbor_body_eq. subst nbrs.
    destruct (decide (i = j)) as [->|Hij].
    + rewrite bind_done, filter_cons_False by (intros [? _]; done).
      apply IH; [lia|taut].
    + destruct (coincident frame i j) eqn:Hco; [exfalso; apply Hex; left; by split|].
      destruct (within_cutoff frame atom_radii i j) eqn:Hnear.
      * rewrite store_done by lia. rewrite !bind_done.
        rewrite filter_cons_True by (by rewrite Hnear).
        destruct (IH (<[cnt := Z.of_nat j]> buf) (S cnt)) as (buf' & Hrun & Hlen & Htake);
          [rewrite length_insert; lia|taut|].
        exists buf'. cbn [length].
        replace (cnt + S _) with (S cnt + length
          (filter (fun j => i <> j /\ within_cutoff frame atom_radii i j) js)) by lia.
        split; [done|]. split; [by rewrite Hlen, length_insert|].
        rewrite Htake.
        rewrite (take_S_r _ _ (Z.of_nat j))
          by (rewrite list_lookup_insert_eq; [done|lia]).
        rewrite take_insert_ge by lia.
        by rewrite fmap_cons, <- app_assoc.
      * rewrite !bind_done.
        rewrite filter_cons_False by (rewrite Hnear; intros [_ ?]; done).
        apply IH; [lia|taut].
Qed.

(** ** The cyclic scan of the neighbours *)

Lemma find_none_iff {A} (f : A -> bool) l :
  List.find f l = None <-> forall x, x ∈ l -> f x = false.
Proof.
  induction l as [|a l IH]; simpl.
  - split; [|done]. intros _ x Hx. by apply elem_of_nil in Hx.
  - destruct (f a) eqn:Hfa.
    + split; [done|]. intros H. rewrite H in Hfa by left. done.
    + rewrite IH. split.
      * intros H x Hx. apply elem_of_cons in Hx as [->|Hx]; auto.
      * intros H x Hx. apply H. by right.
Qed.

Lemma find_some_range (f : nat -> bool) start len k :
  List.find f (seq start len) = Some k ->
  start <= k < start + len /\ f k = true.
Proof.
  intros H. apply List.find_some in H as [Hin Hf].
  apply in_seq in Hin. split; [lia|done].
Qed.

(** Every position of the neighbour list is met once while [k] runs over
    [n] consecutive values. *)
Lemma residue_cover n start k' :
  k' < n -> exists k, start <= k < start + n /\ k mod n = k'.
Proof.
  intros Hk'.
  pose proof (Nat.div_mod_eq start n) as Hdm.
  pose proof (Nat.mod_upper_bound start n ltac:(lia)) as Hr.
  destruct (decide (start mod n <= k')) as [Hle|Hgt].
  - exists (n * (start / n) + k'). split; [lia|].
    symmetry. by apply (Nat.mod_unique _ _ (start / n)).
  - exists (n * (S (start / n)) + k'). split; [lia|].
    symmetry. by apply (Nat.mod_unique _ _ (S (start / n))).
Qed.

Lemma blocking_k_none frame atom_radii neighbor_indices n r_j k_closest :
  blocking_k frame atom_radii neighbor_indices n r_j k_closest = None
  <-> naive_accessible frame atom_radii neighbor_indices n r_j = true.
Proof.
  unfold blocking_k, naive_accessible.
  rewrite find_none_iff, forallb_forall. split.
  - intros H k' Hk'. apply in_seq in Hk'.
    destruct (residue_cover n k_closest k') as (k & Hk & Hmod); [lia|].
    rewrite <- Hmod, H; [done|]. apply elem_of_seq. lia.
  - intros H k Hk. apply elem_of_seq in Hk.
    apply negb_true_iff, H, in_seq.
    pose proof (Nat.mod_upper_bound k n ltac:(lia)). lia.
Qed.

Lemma blocking_k_some frame atom_radii neighbor_indices n r_j k_closest k :
  blocking_k frame atom_radii neighbor_indices n r_j k_closest = Some k ->
  naive_accessible frame atom_radii neighbor_indices n r_j = false /\
  k_closest <= k < k_closest + n.
Proof.
  intros H. split.
  - apply not_true_is_false. intros Hacc.
    apply blocking_k_none with (k_closest := k_closest) in Hacc. congruence.
  - by apply find_some_range in H as [? _].
Qed.


Lemma point_body_eq frame atom_radii neighbor_indices n csp counts
    grid_spacing constant atom_radius_i j k_closest g :
  point_body frame atom_radii neighbor_indices n csp counts grid_spacing
             constant atom_radius_i j (k_closest, g)
  = match blocking_k frame atom_radii neighbor_indices n (load3 csp j)
                     k_closest with
    | Some k => Done (k, g)
    | None =>
        g' ← deposit counts grid_spacing constant atom_radius_i (load3 csp j) g;
        Done (k_closest, g')
    end.
Proof. reflexivity. Qed.

Lemma point_loop_naive frame atom_radii neighbor_indices n csp counts
    grid_spacing constant atom_radius_i js k_closest g :
  snd <$> for_loop (point_body frame atom_radii neighbor_indices n csp counts
                      grid_spacing constant atom_radius_i) js (k_closest, g)
  = for_loop (naive_point_body frame atom_radii neighbor_indices n csp counts
                grid_spacing constant atom_radius_i) js g.
Proof.
  revert k_closest g. induction js as [|j js IH]; intros k_closest g; [done|].
  cbn [for_loop]. rewrite point_body_eq. unfold naive_point_body at 2.
  destruct (blocking_k _ _ _ _ _ _) as [k|] eqn:Hk.
  - apply blocking_k_some in Hk as [-> _]. rewrite !bind_done. apply IH.
  - apply blocking_k_none in Hk as ->.
    destruct (deposit _ _ _ _ _ _) as [g'| |b]; [|done..].
    rewrite !bind_done. apply IH.
Qed.

(** [k_closest_neighbor] grows by less than the length of the neighbour list
    with every point, which bounds every value the counter [k] takes. *)
Lemma k_closest_neighbor_bound frame atom_radii neighbor_indices n csp counts
    grid_spacing constant atom_radius_i js k_closest g k' g' :
  for_loop (point_body frame atom_radii neighbor_indices n csp counts
              grid_spacing constant atom_radius_i) js (k_closest, g)
  = Done (k', g') ->
  k' <= k_closest + length js * pred n.
Proof.
  revert k_closest g. induction js as [|j js IH]; intros k_closest g Hrun.
  - inversion Hrun. simpl. lia.
  - cbn [for_loop] in Hrun. rewrite point_body_eq in Hrun.
    destruct (blocking_k _ _ _ _ _ _) as [k|] eqn:Hk.
    + apply blocking_k_some in Hk as [_ Hk].
      rewrite bind_done in Hrun. apply IH in Hrun. simpl. lia.
    + destruct (deposit _ _ _ _ _ _) as [g1| |b]; [|done..].
      rewrite !bind_done in Hrun. apply IH in Hrun. simpl. lia.
Qed.

(** The largest value the counter [k] can reach at a point of the loop is
    [n_neighbor_indices + k_closest_neighbor]; it fits an [int] as soon as
    [(n_sphere_points + 1) * n_neighbor_indices] does.  (A prefix of the
    loop is such a loop, so this bounds the counter at every point.) *)
Lemma scan_counter_fits_int frame atom_radii neighbor_indices n csp counts
    grid_spacing constant atom_radius_i n_sphere_points g k' g' :
  (Z.of_nat ((n_sphere_points + 1) * n) <= int_max)%Z ->
  for_range n_sphere_points
    (point_body frame atom_radii neighbor_indices n csp counts grid_spacing
                constant atom_radius_i) (0, g) = Done (k', g') ->
  (Z.of_nat (n + k') <= int_max)%Z.
Proof.
  intros Hfit Hrun. apply k_closest_neighbor_bound in Hrun.
  rewrite length_seq in Hrun.
  assert (n + k' <= (n_sphere_points + 1) * n) by (destruct n; simpl in *; nia).
  lia.
Qed.

(** ** Deposits into the grid *)

Lemma in_bounds_spec counts ix iy iz :
  in_bounds counts ix iy iz = true <->
  (0 <= ix < counts !!! 0%nat)%Z /\ (0 <= iy < counts !!! 1%nat)%Z /\
  (0 <= iz < counts !!! 2%nat)%Z.
Proof.
  unfold in_bounds. rewrite !andb_true_iff, !Z.leb_le, !Z.ltb_lt. lia.
Qed.

Lemma grid_index_in_range (c0 c1 c2 ix iy iz : Z) :
  (0 <= ix < c0)%Z -> (0 <= iy < c1)%Z -> (0 <= iz < c2)%Z ->
  (0 <= iz * c1 * c0 + iy * c0 + ix < c0 * c1 * c2)%Z.
Proof.
  intros Hx Hy Hz.
  assert (0 <= c1 * c0)%Z as Hcc by (apply Z.mul_nonneg_nonneg; lia).
  assert (0 <= iz * (c1 * c0) <= (c2 - 1) * (c1 * c0))%Z as Hzz
    by (split; [apply Z.mul_nonneg_nonneg|apply Z.mul_le_mono_nonneg_r]; lia).
  assert (0 <= iy * c0 <= (c1 - 1) * c0)%Z as Hyy
    by (split; [apply Z.mul_nonneg_nonneg|apply Z.mul_le_mono_nonneg_r]; lia).
  rewrite <- (Z.mul_assoc iz c1 c0).
  replace (c0 * c1 * c2)%Z
    with ((c2 - 1) * (c1 * c0) + (c1 - 1) * c0 + c0)%Z by ring.
  lia.
Qed.

(** ** The [int] arithmetic inside its range *)

Lemma int_wrap_fits z : fits_int z -> int_wrap z = z.
Proof.
  unfold fits_int, int_wrap, int_min, int_max. intros Hz.
  rewrite Z.mod_small by lia. lia.
Qed.

Lemma int_mul_fits a b : fits_int (a * b)%Z -> int_mul a b = (a * b)%Z.
Proof. apply int_wrap_fits. Qed.

Lemma int_add_fits a b : fits_int (a + b)%Z -> int_add a b = (a + b)%Z.
Proof. apply int_wrap_fits. Qed.

Lemma fits_int_between a b z :
  fits_int a -> fits_int b -> (a <= z <= b)%Z -> fits_int z.
Proof. unfold fits_int. lia. Qed.

Lemma fits_int_0 : fits_int 0%Z.
Proof. unfold fits_int, int_min, int_max. lia. Qed.

Lemma int_total_grid_points_fits counts :
  grid_fits_int counts ->
  int_total_grid_points counts = total_grid_points counts.
Proof.
  intros [H01 H012]. unfold int_total_grid_points, total_grid_points.
  by rewrite (int_mul_fits _ _ H01), int_mul_fits.
Qed.

Lemma int_grid_index_fits counts ix iy iz :
  grid_fits_int counts ->
  in_bounds counts ix iy iz = true ->
  int_grid_index counts ix iy iz
  = (iz * counts !!! 1%nat * counts !!! 0%nat + iy * counts !!! 0%nat + ix)%Z
  /\ (0 <= int_grid_index counts ix iy iz
        <= int_total_grid_points counts - 1)%Z.
Proof.
  intros Hfits Hb. rewrite int_total_grid_points_fits by done.
  destruct Hfits as [_ Hfits]. apply in_bounds_spec in Hb as (Hx & Hy & Hz).
  pose proof (grid_index_in_range _ _ _ _ _ _ Hx Hy Hz) as Hidx.
  unfold int_grid_index, total_grid_points.
  set (nx := counts !!! 0%nat) in *. set (ny := counts !!! 1%nat) in *.
  set (nz := counts !!! 2%nat) in *.
  assert (0 <= iz * ny)%Z as H1 by (apply Z.mul_nonneg_nonneg; lia).
  assert (0 <= iz * ny * nx)%Z as H2 by (apply Z.mul_nonneg_nonneg; lia).
  assert (0 <= iy * nx)%Z as H3 by (apply Z.mul_nonneg_nonneg; lia).
  assert (iz * ny <= iz * ny * nx)%Z as H4.
  { rewrite <- (Z.mul_1_r (iz * ny)) at 1.
    apply Z.mul_le_mono_nonneg_l; lia. }
  assert (fits_int (nx * ny * nz - 1)%Z) as Htop
    by (unfold fits_int, int_min, int_max in *; lia).
  assert (forall z, 0 <= z <= nx * ny * nz - 1 -> fits_int z)%Z as Hin
    by (intros z Hzr; apply (fits_int_between 0 (nx * ny * nz - 1)%Z);
        [apply fits_int_0|done|done]).
  rewrite (int_mul_fits iz ny) by (apply Hin; lia).
  rewrite (int_mul_fits (iz * ny) nx) by (apply Hin; lia).
  rewrite (int_mul_fits iy nx) by (apply Hin; lia).
  rewrite (int_add_fits (iz * ny * nx) (iy * nx)) by (apply Hin; lia).
  rewrite int_add_fits by (apply Hin; lia).
  split; [done|lia].
Qed.

Lemma fits_int_scaled (n i t : Z) :
  fits_int (n * t)%Z -> (0 <= i <= n)%Z -> fits_int (i * t)%Z.
Proof.
  unfold fits_int, int_min, int_max. intros Hn Hi.
  destruct (Z.le_gt_cases 0 t) as [Ht|Ht].
  - assert (0 <= i * t)%Z by (apply Z.mul_nonneg_nonneg; lia).
    assert (i * t <= n * t)%Z by (apply Z.mul_le_mono_nonneg_r; lia).
    lia.
  - assert (i * t <= 0)%Z by (apply Z.mul_nonneg_nonpos; lia).
    assert (n * t <= i * t)%Z by (apply Z.mul_le_mono_nonpos_r; lia).
    lia.
Qed.

Lemma int_out_offset_fits (n_frames : Z) counts i :
  grid_fits_int counts ->
  fits_int (n_frames * total_grid_points counts)%Z ->
  (Z.of_nat i <= n_frames)%Z ->
  int_out_offset i counts = (Z.of_nat i * total_grid_points counts)%Z.
Proof.
  intros Hgrid Hn Hi. unfold int_out_offset.
  rewrite int_total_grid_points_fits by done.
  apply int_mul_fits, (fits_int_scaled n_frames); [done|lia].
Qed.

Lemma int_xyz_offset_fits (n_frames n_atoms : Z) i :
  fits_int (n_frames * n_atoms)%Z ->
  fits_int (n_frames * n_atoms * 3)%Z ->
  (Z.of_nat i <= n_frames)%Z ->
  int_xyz_offset i n_atoms = (Z.of_nat i * n_atoms * 3)%Z.
Proof.
  intros Hn Hn3 Hi. unfold int_xyz_offset.
  rewrite (int_mul_fits (Z.of_nat i) n_atoms)
    by (apply (fits_int_scaled n_frames); [done|lia]).
  apply int_mul_fits.
  replace (Z.of_nat i * n_atoms * 3)%Z with (Z.of_nat i * (n_atoms * 3))%Z
    by ring.
  apply (fits_int_scaled n_frames); [|lia].
  by replace (n_frames * (n_atoms * 3))%Z with (n_frames * n_atoms * 3)%Z
    by ring.
Qed.

Lemma voxel_in_grid counts grid_spacing p c :
  voxel counts grid_spacing p = Some c ->
  c < Z.to_nat (total_grid_points counts).
Proof.
  unfold voxel, total_grid_points.
  destruct (in_bounds _ _ _ _) eqn:Hb; [|done]. intros [= <-].
  apply in_bounds_spec in Hb as (Hx & Hy & Hz).
  pose proof (grid_index_in_range _ _ _ _ _ _ Hx Hy Hz).
  apply Z2Nat.inj_lt; lia.
Qed.

Lemma length_add_at g c v : length (add_at g c v) = length g.
Proof. apply length_insert. Qed.

Lemma length_deposit_all g cs : length (deposit_all g cs) = length g.
Proof.
  revert g. induction cs as [|cv cs IH]; intros g; [done|].
  simpl. by rewrite IH, length_add_at.
Qed.

Lemma deposit_all_app g cs1 cs2 :
  deposit_all g (cs1 ++ cs2) = deposit_all (deposit_all g cs1) cs2.
Proof. apply foldl_app. Qed.

Lemma deposit_spec counts grid_spacing constant atom_radius_i p g :
  length g = Z.to_nat (total_grid_points counts) ->
  deposit counts grid_spacing constant atom_radius_i p g
  = Done (match voxel counts grid_spacing p with
          | Some c => add_at g c (point_value constant atom_radius_i)
          | None => g
          end).
Proof.
  intros Hlen.
  pose proof (voxel_in_grid counts grid_spacing p) as Hin.
  unfold deposit, voxel in *.
  destruct (in_bounds _ _ _ _) eqn:Hb; [|done].
  specialize (Hin _ eq_refl).
  unfold store_z. rewrite decide_True.
  - by rewrite store_done by lia.
  - apply in_bounds_spec in Hb as (Hx & Hy & Hz).
    pose proof (grid_index_in_range _ _ _ _ _ _ Hx Hy Hz). lia.
Qed.

(** ** The neighbour buffer read back *)

Lemma blocked_occludes frame atom_radii buf nbrs p k nb :
  take (length nbrs) buf = Z.of_nat <$> nbrs ->
  nbrs !! k = Some nb ->
  blocked frame atom_radii buf p k = occludes frame atom_radii p nb.
Proof.
  intros Htake Hk.
  assert (buf !! k = Some (Z.of_nat nb)) as Hbuf.
  { rewrite <- (lookup_take_lt _ (length nbrs)) by (by eapply lookup_lt_Some).
    by rewrite Htake, list_lookup_fmap, Hk. }
  unfold blocked, occludes.
  rewrite (list_lookup_total_correct _ _ _ Hbuf). by rewrite Nat2Z.id.
Qed.

Lemma naive_accessible_exposed frame atom_radii buf nbrs p :
  take (length nbrs) buf = Z.of_nat <$> nbrs ->
  naive_accessible frame atom_radii buf (length nbrs) p
  = exposed frame atom_radii nbrs p.
Proof.
  intros Htake. unfold naive_accessible, exposed.
  apply eq_true_iff_eq. rewrite !forallb_forall. split.
  - intros H nb Hnb. apply list_elem_of_In, list_elem_of_lookup in Hnb as [k Hk].
    erewrite <- blocked_occludes by done.
    apply H, in_seq. apply lookup_lt_Some in Hk. lia.
  - intros H k Hk. apply in_seq in Hk.
    destruct (lookup_lt_is_Some_2 nbrs k) as [nb Hnb]; [lia|].
    erewrite blocked_occludes by done.
    apply H, list_elem_of_In. by eapply list_elem_of_lookup_2.
Qed.

(** ** One atom *)

Lemma naive_loop_spec frame atom_radii sphere_points n_atoms counts
    grid_spacing constant i nb csp js g :
  let nbrs := neighbors frame atom_radii n_atoms i in
  length g = Z.to_nat (total_grid_points counts) ->
  take (length nbrs) nb = Z.of_nat <$> nbrs ->
  (forall j, j ∈ js ->
     load3 csp j = centered frame sphere_points i j (atom_radii !!! i)) ->
  for_loop (naive_point_body frame atom_radii nb (length nbrs) csp counts
              grid_spacing constant (atom_radii !!! i)) js g
  = Done (deposit_all g
            (js ≫= point_contribution frame atom_radii sphere_points n_atoms
                     counts grid_spacing constant i)).
Proof.
  intros nbrs Hlen Htake. revert g Hlen.
  induction js as [|j js IH]; intros g Hlen Hcsp; [done|].
  cbn [for_loop]. unfold naive_point_body at 2.
  rewrite Hcsp by left. rewrite naive_accessible_exposed by done.
  rewrite bind_cons, deposit_all_app.
  unfold point_contribution at 1. fold nbrs.
  destruct (exposed _ _ _ _).
  - rewrite deposit_spec by done. rewrite bind_done.
    destruct (voxel _ _ _) as [c|].
    + rewrite IH; [done|by rewrite length_add_at|].
      intros; apply Hcsp; by right.
    + rewrite IH; [done..|]. intros; apply Hcsp; by right.
  - rewrite bind_done. rewrite IH; [done..|]. intros; apply Hcsp; by right.
Qed.

Lemma atom_body_skip frame atom_radii sphere_points n_atoms n_sphere_points
    atom_selection_mask counts grid_spacing constant i st :
  ~ selected atom_selection_mask i ->
  atom_body frame atom_radii sphere_points n_atoms n_sphere_points
            atom_selection_mask counts grid_spacing constant i st = Done st.
Proof.
  intros Hsel. unfold atom_body. destruct st as [[nb cb] g].
  unfold selected in Hsel. case_decide; [done|]. by destruct Hsel.
Qed.

Lemma atom_body_exits frame atom_radii sphere_points n_atoms n_sphere_points
    atom_selection_mask counts grid_spacing constant i nb cb g :
  selected atom_selection_mask i ->
  Z.to_nat n_atoms <= length nb ->
  scan_aborts frame n_atoms i ->
  atom_body frame atom_radii sphere_points n_atoms n_sphere_points
            atom_selection_mask counts grid_spacing constant i (nb, cb, g)
  = Exited.
Proof.
  intros Hsel Hcap Hab. unfold atom_body, for_range.
  rewrite decide_False by done.
  rewrite neighbor_loop_exits; [done| |done].
  rewrite length_seq. lia.
Qed.

Lemma atom_body_done frame atom_radii sphere_points n_atoms n_sphere_points
    atom_selection_mask counts grid_spacing constant i nb cb g :
  selected atom_selection_mask i ->
  Z.to_nat n_atoms <= length nb ->
  3 * Z.to_nat n_sphere_points <= length cb ->
  length g = Z.to_nat (total_grid_points counts) ->
  ~ scan_aborts frame n_atoms i ->
  exists nb' cb',
    atom_body frame atom_radii sphere_points n_atoms n_sphere_points
              atom_selection_mask counts grid_spacing constant i (nb, cb, g)
    = Done (nb', cb',
            deposit_all g
              (atom_contributions frame atom_radii sphere_points n_atoms
                 n_sphere_points counts grid_spacing constant i)) /\
    length nb' = length nb /\ length cb' = length cb.
Proof.
  intros Hsel Hcap Hcb Hg Hab. unfold atom_body.
  rewrite decide_False by done.
  destruct (neighbor_loop_done frame atom_radii i (seq 0 (Z.to_nat n_atoms)) nb 0)
    as (nb' & Hscan & Hnb' & Htake); [rewrite length_seq; lia|done|].
  fold (neighbors frame atom_radii n_atoms i) in Hscan, Htake.
  rewrite Nat.add_0_l in Hscan, Htake. rewrite take_0, app_nil_l in Htake.
  unfold for_range. rewrite Hscan, bind_done.
  destruct (triple_loop CenteredSpherePoints
              (fun j => fadd (frame !!! (3 * i))
                          (fmul (atom_radii !!! i) (sphere_points !!! (3 * j))))
              (fun j => fadd (frame !!! (3 * i + 1))
                          (fmul (atom_radii !!! i) (sphere_points !!! (3 * j + 1))))
              (fun j => fadd (frame !!! (3 * i + 2))
                          (fmul (atom_radii !!! i) (sphere_points !!! (3 * j + 2))))
              (center_body frame sphere_points i (atom_radii !!! i))
              (Z.to_nat n_sphere_points) cb)
    as (cb' & Hcen & Hcb' & Hpts & _); [done|done|].
  unfold for_range in Hcen. rewrite Hcen, bind_done.
  pose proof (point_loop_naive frame atom_radii nb'
                (length (neighbors frame atom_radii n_atoms i)) cb' counts
                grid_spacing constant (atom_radii !!! i)
                (seq 0 (Z.to_nat n_sphere_points)) 0 g) as Hloop.
  rewrite (naive_loop_spec frame atom_radii sphere_points n_atoms) in Hloop;
    [|done|done|].
  - destruct (for_loop (point_body _ _ _ _ _ _ _ _ _) _ _) as [[k g']| |];
      [|done..].
    inversion Hloop. exists nb', cb'. by rewrite bind_done.
  - intros j Hj. apply elem_of_seq in Hj.
    destruct (Hpts j) as (Hx & Hy & Hz); [lia|].
    unfold load3, centered. by rewrite Hx, Hy, Hz.
Qed.

(** ** One frame *)

Lemma atom_loop_exits frame atom_radii sphere_points n_atoms n_sphere_points
    atom_selection_mask counts grid_spacing constant js nb cb g :
  Z.to_nat n_atoms <= length nb ->
  3 * Z.to_nat n_sphere_points <= length cb ->
  length g = Z.to_nat (total_grid_points counts) ->
  Exists (fun i => selected atom_selection_mask i /\ scan_aborts frame n_atoms i)
         js ->
  for_loop (atom_body frame atom_radii sphere_points n_atoms n_sphere_points
              atom_selection_mask counts grid_spacing constant) js (nb, cb, g)
  = Exited.
Proof.
  revert nb cb g. induction js as [|i js IH]; intros nb cb g Hnb Hcb Hg Hex.
  - by apply Exists_nil in Hex.
  - cbn [for_loop].
    destruct (decide (selected atom_selection_mask i)) as [Hsel|Hsel].
    + destruct (decide (scan_aborts frame n_atoms i)) as [Hab|Hab].
      * by rewrite atom_body_exits.
      * destruct (atom_body_done frame atom_radii sphere_points n_atoms
                    n_sphere_points atom_selection_mask counts grid_spacing
                    constant i nb cb g) as (nb' & cb' & -> & Hnb' & Hcb');
          [done..|].
        rewrite bind_done. apply IH; [lia|lia|by rewrite length_deposit_all|].
        apply Exists_cons in Hex as [[_ ?]|?]; done.
    + rewrite atom_body_skip, bind_done by done. apply IH; [done..|].
      apply Exists_cons in Hex as [[? _]|?]; done.
Qed.

Lemma atom_loop_done frame atom_radii sphere_points n_atoms n_sphere_points
    atom_selection_mask counts grid_spacing constant js nb cb g :
  Z.to_nat n_atoms <= length nb ->
  3 * Z.to_nat n_sphere_points <= length cb ->
  length g = Z.to_nat (total_grid_points counts) ->
  ~ Exists (fun i => selected atom_selection_mask i /\ scan_aborts frame n_atoms i)
           js ->
  exists nb' cb',
    for_loop (atom_body frame atom_radii sphere_points n_atoms n_sphere_points
                atom_selection_mask counts grid_spacing constant) js (nb, cb, g)
    = Done (nb', cb',
            deposit_all g
              (filter (selected atom_selection_mask) js ≫=
                 atom_contributions frame atom_radii sphere_points n_atoms
                   n_sphere_points counts grid_spacing constant)) /\
    length nb' = length nb /\ length cb' = length cb.
Proof.
  revert nb cb g. induction js as [|i js IH]; intros nb cb g Hnb Hcb Hg Hex.
  - by exists nb, cb.
  - rewrite Exists_cons in Hex. cbn [for_loop].
    destruct (decide (selected atom_selection_mask i)) as [Hsel|Hsel].
    + destruct (atom_body_done frame atom_radii sphere_points n_atoms
                  n_sphere_points atom_selection_mask counts grid_spacing
                  constant i nb cb g) as (nb1 & cb1 & -> & Hnb1 & Hcb1);
        [done..|taut|].
      rewrite bind_done, filter_cons_True, bind_cons, deposit_all_app by done.
      destruct (IH nb1 cb1
                  (deposit_all g
                     (atom_contributions frame atom_radii sphere_points n_atoms
                        n_sphere_points counts grid_spacing constant i)))
        as (nb' & cb' & -> & Hnb' & Hcb');
        [lia|lia|by rewrite length_deposit_all|taut|].
      exists nb', cb'. split; [done|]. lia.
    + rewrite atom_body_skip, bind_done, filter_cons_False by done.
      apply IH; [done..|taut].
Qed.

Lemma asa_frame_exits frame n_atoms atom_radii sphere_points n_sphere_points
    nb cb atom_selection_mask g counts grid_spacing :
  Z.to_nat n_atoms <= length nb ->
  3 * Z.to_nat n_sphere_points <= length cb ->
  length g = Z.to_nat (total_grid_points counts) ->
  frame_aborts frame n_atoms atom_selection_mask ->
  asa_frame frame n_atoms atom_radii sphere_points n_sphere_points nb cb
            atom_selection_mask g counts grid_spacing = Exited.
Proof.
  intros Hnb Hcb Hg Hab. unfold asa_frame.
  rewrite <- Hg, zero_loop_all, bind_done.
  apply atom_loop_exits; [done..|by rewrite length_replicate|done].
Qed.

Lemma asa_frame_done frame n_atoms atom_radii sphere_points n_sphere_points
    nb cb atom_selection_mask g counts grid_spacing :
  Z.to_nat n_atoms <= length nb ->
  3 * Z.to_nat n_sphere_points <= length cb ->
  length g = Z.to_nat (total_grid_points counts) ->
  ~ frame_aborts frame n_atoms atom_selection_mask ->
  exists nb' cb',
    asa_frame frame n_atoms atom_radii sphere_points n_sphere_points nb cb
              atom_selection_mask g counts grid_spacing
    = Done (nb', cb',
            frame_grid frame atom_radii sphere_points n_atoms n_sphere_points
                       atom_selection_mask counts grid_spacing) /\
    length nb' = length nb /\ length cb' = length cb.
Proof.
  intros Hnb Hcb Hg Hab. unfold asa_frame.
  rewrite <- Hg, zero_loop_all, bind_done. rewrite Hg.
  apply atom_loop_done; [done..|by rewrite length_replicate|done].
Qed.

Lemma length_frame_grid frame atom_radii sphere_points n_atoms n_sphere_points
    atom_selection_mask counts grid_spacing :
  length (frame_grid frame atom_radii sphere_points n_atoms n_sphere_points
            atom_selection_mask counts grid_spacing)
  = Z.to_nat (total_grid_points counts).
Proof. unfold frame_grid. by rewrite length_deposit_all, length_replicate. Qed.

(** ** The cells of the grid *)

Lemma lookup_add_at g c v c' :
  c' < length g ->
  add_at g c v !!! c' = if decide (c = c') then fadd (g !!! c') v else g !!! c'.
Proof.
  intros Hc'. unfold add_at. case_decide as Hc.
  - subst. by rewrite list_lookup_total_insert_eq.
  - by rewrite list_lookup_total_insert_ne.
Qed.

Lemma deposit_all_lookup g cs c :
  c < length g ->
  deposit_all g cs !!! c = foldl fadd (g !!! c) (values_at c cs).
Proof.
  revert g. induction cs as [|[c' v] cs IH]; intros g Hc; [done|].
  cbn [deposit_all foldl]. fold (deposit_all (add_at g c' v) cs).
  rewrite IH by (by rewrite length_add_at).
  rewrite lookup_add_at by done. unfold values_at.
  case_decide as Hcc.
  - rewrite filter_cons_True by done. done.
  - rewrite filter_cons_False by done. done.
Qed.

(** ** The sphere points *)

Lemma length_bind_const {A B} (f : A -> list B) (l : list A) n :
  (forall x, length (f x) = n) -> length (l ≫= f) = length l * n.
Proof.
  intros Hf. induction l as [|x l IH]; [done|].
  rewrite bind_cons, length_app, Hf, IH. simpl. lia.
Qed.

Lemma generate_sphere_points_spec buf n_points :
  3 * Z.to_nat n_points <= length buf ->
  exists sp,
    generate_sphere_points buf n_points = Done sp /\
    length sp = length buf /\
    (forall i, i < Z.to_nat n_points ->
       sp !!! (3 * i) = sphere_x n_points (Z.of_nat i) /\
       sp !!! (3 * i + 1) = sphere_y (sphere_offset n_points) (Z.of_nat i) /\
       sp !!! (3 * i + 2) = sphere_z n_points (Z.of_nat i)) /\
    (forall k, 3 * Z.to_nat n_points <= k -> sp !! k = buf !! k).
Proof.
  intros Hlen. unfold generate_sphere_points.
  by apply (triple_loop SpherePoints
              (fun i => sphere_x n_points (Z.of_nat i))
              (fun i => sphere_y (sphere_offset n_points) (Z.of_nat i))
              (fun i => sphere_z n_points (Z.of_nat i))).
Qed.

Lemma triples_snoc {A} (f g h : nat -> A) n :
  seq 0 (S n) ≫= (fun i => [f i; g i; h i])
  = (seq 0 n ≫= fun i => [f i; g i; h i]) ++ [f n; g n; h n].
Proof. by rewrite seq_S, bind_app. Qed.

Lemma length_triples {A} (f g h : nat -> A) n :
  length (seq 0 n ≫= fun i => [f i; g i; h i]) = 3 * n.
Proof.
  rewrite (length_bind_const _ _ 3) by done. rewrite length_seq. lia.
Qed.

Lemma lookup_triples {A} `{!Inhabited A} (f g h : nat -> A) n i :
  i < n ->
  let l := seq 0 n ≫= fun i => [f i; g i; h i] in
  l !!! (3 * i) = f i /\ l !!! (3 * i + 1) = g i /\ l !!! (3 * i + 2) = h i.
Proof.
  induction n as [|n IH]; intros Hi; [lia|]. cbn zeta.
  rewrite triples_snoc.
  pose proof (length_triples f g h n) as Hlen.
  destruct (decide (i = n)) as [->|Hne].
  - rewrite !lookup_total_app_r by lia. rewrite Hlen.
    replace (3 * n - 3 * n) with 0 by lia.
    replace (3 * n + 1 - 3 * n) with 1 by lia.
    replace (3 * n + 2 - 3 * n) with 2 by lia. done.
  - rewrite !lookup_total_app_l by lia. apply IH. lia.
Qed.

Lemma generate_sphere_points_filled buf n_points :
  length buf = 3 * Z.to_nat n_points ->
  generate_sphere_points buf n_points = Done (sphere_point_set n_points).
Proof.
  intros Hlen.
  destruct (generate_sphere_points_spec buf n_points) as (sp & -> & Hsp & Hpts & _);
    [lia|].
  f_equal. apply list_eq_same_length with (length sp);
    [unfold sphere_point_set; rewrite length_triples; lia|done|].
  intros k x y Hk Hx Hy.
  apply list_lookup_total_correct in Hx, Hy. subst x y.
  pose proof (Nat.div_mod_eq k 3) as Hdm.
  pose proof (Nat.mod_upper_bound k 3 ltac:(lia)) as Hm.
  destruct (Hpts (k / 3)) as (Hx & Hy & Hz); [lia|].
  destruct (lookup_triples
              (fun i => sphere_x n_points (Z.of_nat i))
              (fun i => sphere_y (sphere_offset n_points) (Z.of_nat i))
              (fun i => sphere_z n_points (Z.of_nat i))
              (Z.to_nat n_points) (k / 3)) as (Hx' & Hy' & Hz'); [lia|].
  fold (sphere_point_set n_points) in Hx', Hy', Hz'.
  destruct (k mod 3) as [|[|[|]]] eqn:Hmod; [| | |lia].
  - replace k with (3 * (k / 3)) by lia. by rewrite Hx, Hx'.
  - replace k with (3 * (k / 3) + 1) by lia. by rewrite Hy, Hy'.
  - replace k with (3 * (k / 3) + 2) by lia. by rewrite Hz, Hz'.
Qed.

Lemma length_malloc {A} (junk : nat -> A) n :
  length (malloc junk n) = Z.to_nat n.
Proof. unfold malloc. by rewrite length_fmap, length_seq. Qed.

Lemma to_nat_of_nat_mul k t : Z.to_nat (Z.of_nat k * t) = k * Z.to_nat t.
Proof.
  destruct (decide (0 <= t)%Z).
  - rewrite Z2Nat.inj_mul by lia. by rewrite Nat2Z.id.
  - assert (Z.to_nat t = 0) as -> by lia.
    assert (Z.of_nat k * t <= 0)%Z by nia. lia.
Qed.

(** ** The loop over the frames *)

Lemma frame_body_eq n_atoms xyzlist atom_radii sphere_points n_sphere_points
    atom_selection_mask counts grid_spacing i wb1 wb2 out :
  let len := Z.to_nat (total_grid_points counts) in
  frame_body n_atoms xyzlist atom_radii sphere_points n_sphere_points
             atom_selection_mask counts grid_spacing (total_grid_points counts)
             i (wb1, wb2, out)
  = r ← asa_frame (frame_at xyzlist n_atoms i) n_atoms atom_radii sphere_points
                  n_sphere_points wb1 wb2 atom_selection_mask
                  (take len (drop (i * len) out)) counts grid_spacing;
    Done (r.1.1, r.1.2, take (i * len) out ++ r.2 ++ drop (i * len + len) out).
Proof.
  intros len. unfold frame_body. rewrite to_nat_of_nat_mul. fold len.
  destruct (asa_frame _ _ _ _ _ _ _ _ _ _ _) as [[[a b] c]| |]; done.
Qed.

Lemma frame_loop_done n_atoms xyzlist atom_radii sphere_points n_sphere_points
    atom_selection_mask counts grid_spacing wb1 wb2 out k :
  let len := Z.to_nat (total_grid_points counts) in
  let grid i := frame_grid (frame_at xyzlist n_atoms i) atom_radii sphere_points
                           n_atoms n_sphere_points atom_selection_mask counts
                           grid_spacing in
  Z.to_nat n_atoms <= length wb1 ->
  3 * Z.to_nat n_sphere_points <= length wb2 ->
  k * len <= length out ->
  ~ Exists (fun i => frame_aborts (frame_at xyzlist n_atoms i) n_atoms
                                  atom_selection_mask) (seq 0 k) ->
  exists wb1' wb2',
    for_range k
      (frame_body n_atoms xyzlist atom_radii sphere_points n_sphere_points
                  atom_selection_mask counts grid_spacing
                  (total_grid_points counts)) (wb1, wb2, out)
    = Done (wb1', wb2', (seq 0 k ≫= grid) ++ drop (k * len) out) /\
    length wb1' = length wb1 /\ length wb2' = length wb2.
Proof.
  intros len grid Hwb1 Hwb2. induction k as [|k IH]; intros Hout Hab.
  - exists wb1, wb2. by rewrite drop_0.
  - rewrite seq_S, Exists_app, Exists_cons, Exists_nil in Hab. simpl in Hab.
    destruct IH as (wb1' & wb2' & Hrun & Hwb1' & Hwb2'); [lia|taut|].
    assert (length (seq 0 k ≫= grid) = k * len) as Hpre.
    { rewrite (length_bind_const _ _ len), length_seq; [done|].
      intros i. unfold grid, len. apply length_frame_grid. }
    rewrite for_range_S, Hrun, bind_done, frame_body_eq. fold len.
    rewrite (drop_app_length' _ _ (k * len)) by done.
    destruct (asa_frame_done (frame_at xyzlist n_atoms k) n_atoms atom_radii
                sphere_points n_sphere_points wb1' wb2' atom_selection_mask
                (take len (drop (k * len) out)) counts grid_spacing)
      as (wb1'' & wb2'' & -> & Hwb1'' & Hwb2'');
      [lia|lia|rewrite length_take_le; [done|rewrite length_drop; lia]|taut|].
    rewrite bind_done. cbn [fst snd]. fold (grid k).
    exists wb1'', wb2''. split; [|lia]. do 2 f_equal.
    rewrite (take_app_length' _ _ (k * len)) by done.
    rewrite drop_app_ge by lia. rewrite Hpre, drop_drop.
    rewrite seq_S, bind_app. simpl. rewrite app_nil_r, <- !app_assoc.
    do 3 f_equal. lia.
Qed.

Lemma frame_loop_exits n_atoms xyzlist atom_radii sphere_points n_sphere_points
    atom_selection_mask counts grid_spacing wb1 wb2 out k :
  Z.to_nat n_atoms <= length wb1 ->
  3 * Z.to_nat n_sphere_points <= length wb2 ->
  k * Z.to_nat (total_grid_points counts) <= length out ->
  Exists (fun i => frame_aborts (frame_at xyzlist n_atoms i) n_atoms
                                atom_selection_mask) (seq 0 k) ->
  for_range k
    (frame_body n_atoms xyzlist atom_radii sphere_points n_sphere_points
                atom_selection_mask counts grid_spacing
                (total_grid_points counts)) (wb1, wb2, out)
  = Exited.
Proof.
  intros Hwb1 Hwb2. induction k as [|k IH]; intros Hout Hab.
  - by apply Exists_nil in Hab.
  - rewrite for_range_S.
    destruct (decide (Exists (fun i => frame_aborts (frame_at xyzlist n_atoms i)
                                n_atoms atom_selection_mask) (seq 0 k)))
      as [Hbefore|Hbefore].
    + rewrite IH; [done|lia|done].
    + destruct (frame_loop_done n_atoms xyzlist atom_radii sphere_points
                  n_sphere_points atom_selection_mask counts grid_spacing
                  wb1 wb2 out k) as (wb1' & wb2' & -> & Hwb1' & Hwb2');
        [done|done|lia|done|].
      rewrite bind_done, frame_body_eq.
      rewrite seq_S, Exists_app, Exists_cons, Exists_nil in Hab. simpl in Hab.
      rewrite asa_frame_exits; [done|lia|lia| |taut].
      rewrite (drop_app_length' _ _ (k * Z.to_nat (total_grid_points counts))).
      * rewrite length_take_le; [done|rewrite length_drop; lia].
      * rewrite (length_bind_const _ _ (Z.to_nat (total_grid_points counts))),
          length_seq; [done|]. intros i. apply length_frame_grid.
Qed.

(** ** The whole run *)

Lemma sasa_buffers n_sphere_points :
  Z.to_nat (n_sphere_points * 3) = 3 * Z.to_nat n_sphere_points /\
  Z.to_nat (3 * n_sphere_points) = 3 * Z.to_nat n_sphere_points.
Proof. lia. Qed.

Lemma sasa_done n_frames n_atoms xyzlist atom_radii n_sphere_points
    atom_selection_mask out counts grid_spacing junk_int junk_float :
  Z.to_nat n_frames * Z.to_nat (total_grid_points counts) <= length out ->
  ~ sasa_aborts n_frames n_atoms xyzlist atom_selection_mask ->
  sasa n_frames n_atoms xyzlist atom_radii n_sphere_points atom_selection_mask
       out counts grid_spacing junk_int junk_float
  = Done (sasa_grids n_frames n_atoms xyzlist atom_radii n_sphere_points
                     atom_selection_mask counts grid_spacing
          ++ drop (Z.to_nat n_frames * Z.to_nat (total_grid_points counts)) out).
Proof.
  intros Hout Hab. unfold sasa.
  destruct (sasa_buffers n_sphere_points) as [Hsp Hwb2].
  rewrite generate_sphere_points_filled, bind_done
    by (by rewrite length_malloc).
  destruct (frame_loop_done n_atoms xyzlist atom_radii
              (sphere_point_set n_sphere_points) n_sphere_points
              atom_selection_mask counts grid_spacing
              (malloc junk_int n_atoms)
              (malloc junk_float (3 * n_sphere_points)) out (Z.to_nat n_frames))
    as (wb1' & wb2' & -> & _); [by rewrite length_malloc|
                                rewrite length_malloc; lia|done|done|].
  by rewrite bind_done.
Qed.

Lemma sasa_exits n_frames n_atoms xyzlist atom_radii n_sphere_points
    atom_selection_mask out counts grid_spacing junk_int junk_float :
  Z.to_nat n_frames * Z.to_nat (total_grid_points counts) <= length out ->
  sasa_aborts n_frames n_atoms xyzlist atom_selection_mask ->
  sasa n_frames n_atoms xyzlist atom_radii n_sphere_points atom_selection_mask
       out counts grid_spacing junk_int junk_float
  = Exited.
Proof.
  intros Hout Hab. unfold sasa.
  destruct (sasa_buffers n_sphere_points) as [Hsp Hwb2].
  rewrite generate_sphere_points_filled, bind_done
    by (by rewrite length_malloc).
  rewrite frame_loop_exits; [done|by rewrite length_malloc|
                             rewrite length_malloc; lia|done|done].
Qed.

(** ** A frame is read through the coordinates of its atoms only *)

Lemma filter_ext_in {A} (P Q : A -> Prop) `{!forall x, Decision (P x)}
    `{!forall x, Decision (Q x)} (l : list A) :
  (forall x, x ∈ l -> P x <-> Q x) -> filter P l = filter Q l.
Proof.
  induction l as [|a l IH]; intros Hext; [done|].
  assert (filter P l = filter Q l) as Hl
    by (apply IH; intros; apply Hext; by right).
  destruct (decide (P a)) as [Ha|Ha].
  - rewrite !filter_cons_True; [by rewrite Hl|by apply Hext; [left|]|done].
  - rewrite !filter_cons_False; [done|rewrite <- Hext by left; done|done].
Qed.

Lemma bind_ext_in {A B} (f g : A -> list B) (l : list A) :
  (forall x, x ∈ l -> f x = g x) -> l ≫= f = l ≫= g.
Proof.
  intros H. apply Forall_bind_ext, Forall_forall, H.
Qed.

Lemma forallb_ext_in {A} (f g : A -> bool) (l : list A) :
  (forall x, x ∈ l -> f x = g x) -> forallb f l = forallb g l.
Proof.
  induction l as [|a l IH]; intros H; [done|]. simpl.
  rewrite H by left. rewrite IH; [done|]. intros; apply H; by right.
Qed.

Lemma Exists_ext_in {A} (P Q : A -> Prop) (l : list A) :
  (forall x, x ∈ l -> P x <-> Q x) -> Exists P l <-> Exists Q l.
Proof.
  intros H. rewrite !Exists_exists. split; intros (x & Hx & HP); exists x;
    (split; [done|]); by apply H.
Qed.

Section Agree.

Variables (n : nat) (frame frame' : list float).
Hypothesis Hagree : agree n frame frame'.

Lemma load3_agree i : i < n -> load3 frame i = load3 frame' i.
Proof using Hagree. intros Hi. unfold load3. rewrite !Hagree by lia. done. Qed.

Lemma r2_agree i j : i < n -> j < n -> r2 frame i j = r2 frame' i j.
Proof using Hagree. intros Hi Hj. unfold r2. by rewrite !load3_agree. Qed.

Lemma within_cutoff_agree atom_radii i j :
  i < n -> j < n ->
  within_cutoff frame atom_radii i j = within_cutoff frame' atom_radii i j.
Proof using Hagree. intros Hi Hj. unfold within_cutoff. by rewrite r2_agree. Qed.

Lemma coincident_agree i j :
  i < n -> j < n -> coincident frame i j = coincident frame' i j.
Proof using Hagree. intros Hi Hj. unfold coincident. by rewrite r2_agree. Qed.

Lemma neighbors_agree atom_radii n_atoms i :
  Z.to_nat n_atoms = n -> i < n ->
  neighbors frame atom_radii n_atoms i = neighbors frame' atom_radii n_atoms i.
Proof using Hagree.
  intros Hn Hi. unfold neighbors. apply filter_ext_in.
  intros j Hj. apply elem_of_seq in Hj.
  rewrite within_cutoff_agree by lia. done.
Qed.

Lemma exposed_agree atom_radii nbrs p :
  (forall nb, nb ∈ nbrs -> nb < n) ->
  exposed frame atom_radii nbrs p = exposed frame' atom_radii nbrs p.
Proof using Hagree.
  intros Hnb. unfold exposed. apply forallb_ext_in.
  intros nb Hin. unfold occludes. by rewrite load3_agree by auto.
Qed.

Lemma centered_agree sphere_points i j r :
  i < n -> centered frame sphere_points i j r = centered frame' sphere_points i j r.
Proof using Hagree. intros Hi. unfold centered. rewrite !Hagree by lia. done. Qed.

Lemma point_contribution_agree atom_radii sphere_points n_atoms counts
    grid_spacing constant i j :
  Z.to_nat n_atoms = n -> i < n ->
  point_contribution frame atom_radii sphere_points n_atoms counts
                     grid_spacing constant i j
  = point_contribution frame' atom_radii sphere_points n_atoms counts
                       grid_spacing constant i j.
Proof using Hagree.
  intros Hn Hi. unfold point_contribution.
  rewrite (neighbors_agree _ _ _ Hn Hi), centered_agree by done.
  rewrite exposed_agree; [done|].
  intros nb Hnb. unfold neighbors in Hnb.
  apply list_elem_of_filter in Hnb as [_ Hnb]. apply elem_of_seq in Hnb. lia.
Qed.

Lemma frame_contributions_agree atom_radii sphere_points n_atoms
    n_sphere_points atom_selection_mask counts grid_spacing :
  Z.to_nat n_atoms = n ->
  frame_contributions frame atom_radii sphere_points n_atoms n_sphere_points
                      atom_selection_mask counts grid_spacing
  = frame_contributions frame' atom_radii sphere_points n_atoms n_sphere_points
                        atom_selection_mask counts grid_spacing.
Proof using Hagree.
  intros Hn. unfold frame_contributions. apply bind_ext_in.
  intros i Hi. apply list_elem_of_filter in Hi as [_ Hi].
  apply elem_of_seq in Hi.
  unfold atom_contributions. apply bind_ext_in. intros j _.
  apply point_contribution_agree; [done|lia].
Qed.

Lemma frame_grid_agree atom_radii sphere_points n_atoms n_sphere_points
    atom_selection_mask counts grid_spacing :
  Z.to_nat n_atoms = n ->
  frame_grid frame atom_radii sphere_points n_atoms n_sphere_points
             atom_selection_mask counts grid_spacing
  = frame_grid frame' atom_radii sphere_points n_atoms n_sphere_points
               atom_selection_mask counts grid_spacing.
Proof using Hagree.
  intros Hn. unfold frame_grid. by rewrite frame_contributions_agree.
Qed.

Lemma frame_aborts_agree n_atoms atom_selection_mask :
  Z.to_nat n_atoms = n ->
  frame_aborts frame n_atoms atom_selection_mask
  <-> frame_aborts frame' n_atoms atom_selection_mask.
Proof using Hagree.
  intros Hn. unfold frame_aborts. apply Exists_ext_in.
  intros i Hi. apply elem_of_seq in Hi.
  assert (scan_aborts frame n_atoms i <-> scan_aborts frame' n_atoms i) as ->.
  { unfold scan_aborts. apply Exists_ext_in. intros j Hj.
    apply elem_of_seq in Hj. rewrite coincident_agree by lia. done. }
  done.
Qed.

End Agree.

Lemma lookup_concat_uniform (fs : list (list float)) m k f i :
  Forall (fun f => length f = m) fs ->
  fs !! k = Some f -> i < m ->
  concat fs !!! (k * m + i) = f !!! i.
Proof.
  intros Hall. revert k. induction Hall as [|f0 fs Hf0 Hall IH]; intros k Hk Hi.
  - done.
  - destruct k as [|k]; simpl in *.
    + injection Hk as ->. by rewrite lookup_total_app_l by lia.
    + rewrite lookup_total_app_r by lia.
      replace (m + k * m + i - length f0) with (k * m + i) by lia. by apply IH.
Qed.

Lemma frame_at_concat (fs : list (list float)) n_atoms k f :
  Forall (fun f => length f = 3 * Z.to_nat n_atoms) fs ->
  fs !! k = Some f ->
  agree (Z.to_nat n_atoms) (frame_at (concat fs) n_atoms k) f.
Proof.
  intros Hall Hk i Hi. unfold frame_at. rewrite lookup_total_drop.
  replace (Z.to_nat (Z.of_nat k * n_atoms * 3)) with (k * (3 * Z.to_nat n_atoms))
    by (rewrite <- Z.mul_assoc, to_nat_of_nat_mul; lia).
  by apply lookup_concat_uniform.
Qed.

Lemma bind_seq_lookup {A B} (g : nat -> list B) (h : A -> list B) (l : list A) s :
  (forall i x, l !! i = Some x -> g (s + i) = h x) ->
  seq s (length l) ≫= g = l ≫= h.
Proof.
  revert s. induction l as [|x l IH]; intros s H; [done|].
  cbn [length seq]. rewrite !bind_cons.
  rewrite <- (H 0 x eq_refl), Nat.add_0_r. f_equal.
  apply IH. intros i y Hy. rewrite <- (H (S i) y Hy). f_equal. lia.
Qed.

(** ** No store outside the grid *)

Lemma safe_bind {S T} (P : S -> Prop) (Q : T -> Prop) (m : outcome S)
    (f : S -> outcome T) :
  safe P m -> (forall s, P s -> safe Q (f s)) -> safe Q (m ≫= f).
Proof. destruct m; simpl; auto. Qed.

Lemma for_loop_safe {S} (P : S -> Prop) (body : nat -> S -> outcome S) l s :
  P s -> (forall i s, P s -> safe P (body i s)) -> safe P (for_loop body l s).
Proof.
  intros Hs Hbody. revert s Hs. induction l as [|i l IH]; intros s Hs; [done|].
  cbn [for_loop]. eapply safe_bind; [by apply Hbody|]. auto.
Qed.

Lemma store_safe {A} b (buf : list A) i v :
  b <> OutGrid -> safe (fun _ => True) (store b buf i v).
Proof. intros Hb. unfold store. by case_decide. Qed.

Lemma neighbor_body_safe frame atom_radii i atom_radius_i r_i j st :
  safe (fun _ => True) (neighbor_body frame atom_radii i atom_radius_i r_i j st).
Proof.
  unfold neighbor_body. destruct st as [nb cnt]. case_decide; [done|].
  eapply safe_bind with (P := fun _ => True).
  - destruct (flt _ _); [|done].
    eapply safe_bind; [by apply store_safe|done].
  - intros st' _. by destruct (flt _ _).
Qed.

Lemma center_body_safe frame sphere_points i atom_radius_i j cb :
  safe (fun _ => True) (center_body frame sphere_points i atom_radius_i j cb).
Proof.
  unfold center_body.
  eapply safe_bind; [by apply store_safe|]. intros c1 _.
  eapply safe_bind; [by apply store_safe|]. intros c2 _.
  by apply store_safe.
Qed.

Lemma deposit_safe counts grid_spacing constant atom_radius_i p g :
  length g = Z.to_nat (total_grid_points counts) ->
  safe (fun g' => length g' = Z.to_nat (total_grid_points counts))
       (deposit counts grid_spacing constant atom_radius_i p g).
Proof.
  intros Hlen. rewrite deposit_spec by done. simpl.
  destruct (voxel _ _ _); [by rewrite length_add_at|done].
Qed.

Lemma point_body_safe frame atom_radii nb n csp counts grid_spacing constant
    atom_radius_i j st :
  length st.2 = Z.to_nat (total_grid_points counts) ->
  safe (fun st' => length st'.2 = Z.to_nat (total_grid_points counts))
       (point_body frame atom_radii nb n csp counts grid_spacing constant
                   atom_radius_i j st).
Proof.
  destruct st as [k g]. intros Hlen. rewrite point_body_eq.
  destruct (blocking_k _ _ _ _ _ _); [done|].
  eapply safe_bind; [by apply deposit_safe|]. by intros g' Hg'.
Qed.

Lemma atom_body_safe frame atom_radii sphere_points n_atoms n_sphere_points
    atom_selection_mask counts grid_spacing constant i st :
  length st.2 = Z.to_nat (total_grid_points counts) ->
  safe (fun st' => length st'.2 = Z.to_nat (total_grid_points counts))
       (atom_body frame atom_radii sphere_points n_atoms n_sphere_points
                  atom_selection_mask counts grid_spacing constant i st).
Proof.
  destruct st as [[nb cb] g]. intros Hlen. unfold atom_body.
  case_decide; [done|].
  eapply safe_bind with (P := fun _ => True).
  { apply for_loop_safe; [done|]. intros; apply neighbor_body_safe. }
  intros [nb' cnt] _.
  eapply safe_bind with (P := fun _ => True).
  { apply for_loop_safe; [done|]. intros; apply center_body_safe. }
  intros cb' _.
  eapply safe_bind
    with (P := fun st' => length st'.2 = Z.to_nat (total_grid_points counts)).
  { apply for_loop_safe; [done|]. intros; by apply point_body_safe. }
  by intros [k g'] Hg'.
Qed.

Lemma asa_frame_safe frame n_atoms atom_radii sphere_points n_sphere_points
    nb cb atom_selection_mask g counts grid_spacing :
  length g = Z.to_nat (total_grid_points counts) ->
  safe (fun st' => length st'.2 = Z.to_nat (total_grid_points counts))
       (asa_frame frame n_atoms atom_radii sphere_points n_sphere_points nb cb
                  atom_selection_mask g counts grid_spacing).
Proof.
  intros Hlen. unfold asa_frame.
  rewrite <- Hlen, zero_loop_all, bind_done. rewrite Hlen.
  apply for_loop_safe; [simpl; by rewrite length_replicate|].
  intros; by apply atom_body_safe.
Qed.

Lemma safe_no_fault {S} (P : S -> Prop) (o : outcome S) :
  safe P o -> faults_on OutGrid o = false.
Proof.
  destruct o; simpl; [done..|]. intros Hb. by apply bool_decide_eq_false.
Qed.

(** ** The properties of the specification *)


(** The loop over the sphere points deposits the points [classify] marks
    accessible, and no other. *)
Lemma point_loop_classify frame atom_radii neighbor_indices n csp counts
    grid_spacing constant atom_radius_i js k_closest g :
  snd <$> for_loop (point_body frame atom_radii neighbor_indices n csp counts
                      grid_spacing constant atom_radius_i) js (k_closest, g)
  = for_loop (fun j g => deposit counts grid_spacing constant atom_radius_i
                           (load3 csp j) g)
      (fst <$> filter (fun jb => jb.2 = true)
                 (zip js (classify frame atom_radii neighbor_indices n csp js
                            k_closest))) g.
Proof.
  revert k_closest g. induction js as [|j js IH]; intros k_closest g; [done|].
  cbn [for_loop classify]. rewrite point_body_eq.
  destruct (blocking_k _ _ _ _ _ _) as [k|] eqn:Hk; cbn [zip zip_with].
  - rewrite filter_cons_False by done. rewrite bind_done. apply IH.
  - rewrite filter_cons_True by done. cbn [fmap list_fmap fst for_loop].
    destruct (deposit _ _ _ _ _ _) as [g'| |b]; [|done..].
    rewrite !bind_done. apply IH.
Qed.


Lemma filter_seq_sorted (P : nat -> Prop) `{!forall x, Decision (P x)} s n :
  StronglySorted lt (filter P (seq s n)).
Proof.
  revert s. induction n as [|n IH]; intros s; [constructor|].
  cbn [seq]. destruct (decide (P s)) as [Hs|Hs].
  - rewrite filter_cons_True by done. constructor; [apply IH|].
    apply Forall_forall. intros x Hx.
    apply list_elem_of_filter in Hx as [_ Hx]. apply elem_of_seq in Hx. lia.
  - rewrite filter_cons_False by done. apply IH.
Qed.

(** C5. The scan of [asa_frame] for the atoms close to atom [i] (run on a
    buffer with room for [n_atoms] indices) either meets an atom on top of
    atom [i] and ends the process, or returns with the buffer holding, in
    its first [n_neighbor_indices] cells, exactly the indices [j <> i]
    below [n_atoms] whose squared distance to atom [i] is strictly less
    than [(radius_i + radius_j)^2], in ascending order. *)
Theorem neighbor_scan_collects_close_atoms frame atom_radii n_atoms i
    neighbor_indices :
  Z.to_nat n_atoms <= length neighbor_indices ->
  let scan :=
    for_range (Z.to_nat n_atoms)
      (neighbor_body frame atom_radii i (atom_radii !!! i) (load3 frame i))
      (neighbor_indices, 0) in
  let nbrs := neighbors frame atom_radii n_atoms i in
  (forall j, j ∈ nbrs <->
     j < Z.to_nat n_atoms /\ j <> i /\
     flt (r2 frame i j)
         (fmul (fadd (atom_radii !!! i) (atom_radii !!! j))
               (fadd (atom_radii !!! i) (atom_radii !!! j))) = true) /\
  StronglySorted lt nbrs /\
  (if decide (scan_aborts frame n_atoms i) then scan = Exited
   else exists nb', scan = Done (nb', length nbrs) /\
                    take (length nbrs) nb' = Z.of_nat <$> nbrs).
Proof.
  intros Hcap scan nbrs. split; [|split].
  - intros j. unfold nbrs, neighbors.
    rewrite list_elem_of_filter, elem_of_seq. unfold within_cutoff.
    rewrite Is_true_true. split; [intros ([? ?] & ?)|intros (? & ? & ?)];
      repeat split; auto with lia.
  - apply filter_seq_sorted.
  - unfold scan, for_range. case_decide as Hab.
    + apply neighbor_loop_exits; [rewrite length_seq; lia|done].
    + destruct (neighbor_loop_done frame atom_radii i (seq 0 (Z.to_nat n_atoms))
                  neighbor_indices 0) as (nb' & Hscan & _ & Htake);
        [rewrite length_seq; lia|done|].
      exists nb'. rewrite Nat.add_0_l in Hscan, Htake.
      by rewrite take_0, app_nil_l in Htake.
Qed.

(** C7. An atom [i] whose mask entry is 0 is skipped: the round of the atom
    loop for [i] returns the buffers and the grid as it found them (no
    point is centred or classified, nothing is added to the grid).  The
    scan of any other atom [i'] still meets [i]: it stores [i] among the
    neighbours of [i'] exactly when [i] is within the cutoff of [i'], and it
    ends the process when [i] lies on top of [i']. *)
Theorem unselected_atom_is_skipped_but_scanned frame atom_radii sphere_points
    n_atoms n_sphere_points atom_selection_mask counts grid_spacing constant
    i st :
  atom_selection_mask !!! i = 0%Z ->
  atom_body frame atom_radii sphere_points n_atoms n_sphere_points
            atom_selection_mask counts grid_spacing constant i st = Done st
  /\ forall i' neighbor_indices,
       i' <> i -> i < Z.to_nat n_atoms ->
       Z.to_nat n_atoms <= length neighbor_indices ->
       let scan :=
         for_range (Z.to_nat n_atoms)
           (neighbor_body frame atom_radii i' (atom_radii !!! i')
                          (load3 frame i')) (neighbor_indices, 0) in
       (coincident frame i' i = true -> scan = Exited) /\
       (~ scan_aborts frame n_atoms i' ->
        exists nb' n_neighbor_indices,
          scan = Done (nb', n_neighbor_indices) /\
          (Z.of_nat i ∈ take n_neighbor_indices nb'
           <-> within_cutoff frame atom_radii i' i = true)).
Proof.
  intros Hmask. split.
  - apply atom_body_skip. unfold selected. rewrite Hmask. intros H; by apply H.
  - intros i' nb Hne Hi Hcap scan. unfold scan, for_range. split.
    + intros Hco. apply neighbor_loop_exits; [rewrite length_seq; lia|].
      apply Exists_exists. exists i. split; [apply elem_of_seq; lia|].
      split; [done|by rewrite Hco].
    + intros Hab.
      destruct (neighbor_loop_done frame atom_radii i' (seq 0 (Z.to_nat n_atoms))
                  nb 0) as (nb' & Hscan & _ & Htake);
        [rewrite length_seq; lia|done|].
      rewrite Nat.add_0_l in Hscan, Htake.
      rewrite take_0, app_nil_l in Htake.
      eexists nb', _. split; [done|]. rewrite Htake.
      rewrite list_elem_of_fmap. split.
      * intros (j & Hj & Hin). apply Nat2Z.inj in Hj as <-.
        apply list_elem_of_filter in Hin as [[_ Hnear] _].
        by apply Is_true_true.
      * intros Hnear. exists i. split; [done|].
        apply list_elem_of_filter. split; [|apply elem_of_seq; lia].
        split; [done|by apply Is_true_true].
Qed.

(** The cells of a frame's grid, with the cell of a point and the value of
    its contribution taken from [voxel_coord] and [area_constant]. *)
Lemma cells_accumulate frame n_atoms atom_radii sphere_points
    n_sphere_points neighbor_indices centered_sphere_points
    atom_selection_mask out_grid counts grid_spacing :
  Z.to_nat n_atoms <= length neighbor_indices ->
  3 * Z.to_nat n_sphere_points <= length centered_sphere_points ->
  length out_grid = Z.to_nat (total_grid_points counts) ->
  ~ frame_aborts frame n_atoms atom_selection_mask ->
  let contributions :=
    filter (selected atom_selection_mask) (seq 0 (Z.to_nat n_atoms)) ≫= fun i =>
    seq 0 (Z.to_nat n_sphere_points) ≫= fun j =>
      let p := centered frame sphere_points i j (atom_radii !!! i) in
      let ix := voxel_coord (v0 p) grid_spacing in
      let iy := voxel_coord (v1 p) grid_spacing in
      let iz := voxel_coord (v2 p) grid_spacing in
      if exposed frame atom_radii (neighbors frame atom_radii n_atoms i) p
         && in_bounds counts ix iy iz
      then [(Z.to_nat (iz * counts !!! 1%nat * counts !!! 0%nat
                       + iy * counts !!! 0%nat + ix),
             fmul (fmul (area_constant n_sphere_points) (atom_radii !!! i))
                  (atom_radii !!! i))]
      else [] in
  (exists nb' cb' grid,
     asa_frame frame n_atoms atom_radii sphere_points n_sphere_points
               neighbor_indices centered_sphere_points atom_selection_mask
               out_grid counts grid_spacing = Done (nb', cb', grid) /\
     length grid = Z.to_nat (total_grid_points counts) /\
     forall c, c < Z.to_nat (total_grid_points counts) ->
       grid !!! c = foldl fadd f_zero (values_at c contributions)) /\
  (forall p constant atom_radius_i g,
     length g = Z.to_nat (total_grid_points counts) ->
     let ix := voxel_coord (v0 p) grid_spacing in
     let iy := voxel_coord (v1 p) grid_spacing in
     let iz := voxel_coord (v2 p) grid_spacing in
     let grid_index := Z.to_nat (iz * counts !!! 1%nat * counts !!! 0%nat
                                 + iy * counts !!! 0%nat + ix) in
     deposit counts grid_spacing constant atom_radius_i p g
     = Done (if in_bounds counts ix iy iz
             then <[grid_index :=
                      fadd (g !!! grid_index)
                           (fmul (fmul constant atom_radius_i) atom_radius_i)]> g
             else g)).
Proof.
  intros Hnb Hcb Hg Hab contributions. split.
  - destruct (asa_frame_done frame n_atoms atom_radii sphere_points
                n_sphere_points neighbor_indices centered_sphere_points
                atom_selection_mask out_grid counts grid_spacing)
      as (nb' & cb' & Hrun & _); [done..|].
    eexists nb', cb', _. split; [exact Hrun|].
    split; [apply length_frame_grid|].
    intros c Hc. unfold frame_grid.
    rewrite deposit_all_lookup by (by rewrite length_replicate).
    rewrite lookup_total_replicate_2 by done.
    do 2 f_equal. unfold frame_contributions, contributions.
    apply bind_ext_in. intros i _. unfold atom_contributions.
    apply bind_ext_in. intros j _. unfold point_contribution, voxel, point_value.
    destruct (exposed _ _ _ _); [|done]. by destruct (in_bounds _ _ _ _).
  - intros p constant atom_radius_i g Hlen ix iy iz grid_index.
    rewrite deposit_spec by done. unfold voxel. fold ix iy iz.
    by destruct (in_bounds _ _ _ _).
Qed.

(** [roundf] leaves a value without fractional bits as it is, and sends any
    other finite value to the nearest integer [q], halfway cases away from
    zero: [q - 1/2 <= m * 2^e < q + 1/2] for the magnitude [m * 2^e]. *)
Lemma froundf_nearest s m e :
  (e < 0)%Z ->
  exists q : Z,
    froundf (S754_finite s m e)
    = binary_normalize 24 128 (cond_Zopp s q) 0 s /\
    (2 * q * 2 ^ (- e) - 2 ^ (- e) <= 2 * Z.pos m
       < 2 * q * 2 ^ (- e) + 2 ^ (- e))%Z.
Proof.
  intros He. exists ((2 * Z.pos m + 2 ^ (- e)) / 2 ^ (1 - e))%Z. split.
  - unfold froundf. destruct (0 <=? e)%Z eqn:Hle; [|done].
    apply Z.leb_le in Hle. lia.
  - replace (1 - e)%Z with (Z.succ (- e)) by lia.
    rewrite Z.pow_succ_r by lia.
    assert (0 < 2 ^ (- e))%Z as Hd by (apply Z.pow_pos_nonneg; lia).
    set (d := (2 ^ (- e))%Z) in *.
    pose proof (Z.mul_div_le (2 * Z.pos m + d) (2 * d) ltac:(lia)) as Hlo.
    pose proof (Z.mul_succ_div_gt (2 * Z.pos m + d) (2 * d) ltac:(lia)) as Hhi.
    set (q := ((2 * Z.pos m + d) / (2 * d))%Z) in *. lia.
Qed.

Lemma froundf_integral s m e :
  (0 <= e)%Z -> froundf (S754_finite s m e) = S754_finite s m e.
Proof. intros He. unfold froundf. by apply Z.leb_le in He as ->. Qed.

(** X13. In a frame that [asa_frame] processes to the end (with sizes and
    indices that fit an [int]), every exposed point [p] of a selected atom
    [i] is sent to the voxel [ix, iy, iz] obtained, per coordinate, by
    dividing by [grid_spacing], rounding with [roundf], multiplying by
    [grid_spacing], dividing by [grid_spacing] again and truncating, each
    operation rounded to binary32; when [0 <= ix < counts[0]],
    [0 <= iy < counts[1]] and [0 <= iz < counts[2]] the binary32 value
    [(float)(4.0f * M_PI / n_sphere_points) * radius_i * radius_i] is added
    to the cell whose index line 137 computes, and otherwise the point adds
    nothing.  Every cell of the grid ends as the float sum, from 0 and in
    the order of the loops, of the values of all the points sent to it:
    points of one atom or of several accumulate. *)
Theorem exposed_points_accumulate frame n_atoms atom_radii sphere_points
    n_sphere_points neighbor_indices centered_sphere_points
    atom_selection_mask out_grid counts grid_spacing :
  Z.to_nat n_atoms <= length neighbor_indices ->
  3 * Z.to_nat n_sphere_points <= length centered_sphere_points ->
  frame_fits_int n_atoms n_sphere_points counts ->
  length out_grid = Z.to_nat (int_total_grid_points counts) ->
  ~ frame_aborts frame n_atoms atom_selection_mask ->
  let coord c :=
    int_of_float
      (fdiv (fmul (froundf (fdiv c grid_spacing)) grid_spacing) grid_spacing) in
  let constant :=
    f_of_d (ddiv (dmul (d_of_f (f_of_Z 4))
                       (S754_finite false 7074237752028440 (-51)))
                 (d_of_Z n_sphere_points)) in
  let contributions :=
    filter (selected atom_selection_mask) (seq 0 (Z.to_nat n_atoms)) ≫= fun i =>
    seq 0 (Z.to_nat n_sphere_points) ≫= fun j =>
      let p := centered frame sphere_points i j (atom_radii !!! i) in
      if exposed frame atom_radii (neighbors frame atom_radii n_atoms i) p
         && in_bounds counts (coord (v0 p)) (coord (v1 p)) (coord (v2 p))
      then [(Z.to_nat (int_grid_index counts (coord (v0 p)) (coord (v1 p))
                                      (coord (v2 p))),
             fmul (fmul constant (atom_radii !!! i)) (atom_radii !!! i))]
      else [] in
  (exists nb' cb' grid,
     asa_frame frame n_atoms atom_radii sphere_points n_sphere_points
               neighbor_indices centered_sphere_points atom_selection_mask
               out_grid counts grid_spacing = Done (nb', cb', grid) /\
     length grid = Z.to_nat (int_total_grid_points counts) /\
     forall c, c < Z.to_nat (int_total_grid_points counts) ->
       grid !!! c = foldl fadd f_zero (values_at c contributions)) /\
  (forall p constant' atom_radius_i g,
     length g = Z.to_nat (int_total_grid_points counts) ->
     let grid_index :=
       Z.to_nat (int_grid_index counts (coord (v0 p)) (coord (v1 p))
                                (coord (v2 p))) in
     deposit counts grid_spacing constant' atom_radius_i p g
     = Done (if in_bounds counts (coord (v0 p)) (coord (v1 p)) (coord (v2 p))
             then <[grid_index :=
                      fadd (g !!! grid_index)
                           (fmul (fmul constant' atom_radius_i)
                                 atom_radius_i)]> g
             else g)) /\
  (forall s m e, (e < 0)%Z ->
     exists q : Z,
       froundf (S754_finite s m e)
       = binary_normalize 24 128 (cond_Zopp s q) 0 s /\
       (2 * q * 2 ^ (- e) - 2 ^ (- e) <= 2 * Z.pos m
          < 2 * q * 2 ^ (- e) + 2 ^ (- e))%Z) /\
  (forall s m e, (0 <= e)%Z -> froundf (S754_finite s m e) = S754_finite s m e).
Proof.
  intros Hnb Hcb (Hfits & _) Hg Hab coord constant contributions.
  rewrite int_total_grid_points_fits in * by done.
  pose proof (cells_accumulate frame n_atoms atom_radii sphere_points
                n_sphere_points neighbor_indices centered_sphere_points
                atom_selection_mask out_grid counts grid_spacing
                Hnb Hcb Hg Hab) as Hcells.
  cbv beta zeta in Hcells. destruct Hcells as [Hrun Hdep].
  split; [|split; [|split; [apply froundf_nearest|apply froundf_integral]]].
  - destruct Hrun as (nb' & cb' & grid & Hrun & Hlen & Hcell).
    exists nb', cb', grid. split; [done|]. split; [done|].
    intros c Hc. rewrite (Hcell c Hc). do 2 f_equal.
    apply bind_ext_in. intros i _. apply bind_ext_in. intros j _.
    unfold voxel_coord, coord, constant, area_constant, f_four, M_PI.
    cbv zeta.
    destruct (exposed _ _ _ _); [|done]. cbn [andb].
    destruct (in_bounds counts _ _ _) eqn:Hin; [|done].
    by destruct (int_grid_index_fits counts _ _ _ Hfits Hin) as [-> _].
  - intros p constant' atom_radius_i g Hlen grid_index.
    rewrite (Hdep p constant' atom_radius_i g Hlen).
    unfold grid_index, voxel_coord, coord. cbv zeta.
    destruct (in_bounds counts _ _ _) eqn:Hin; [|done].
    by destruct (int_grid_index_fits counts _ _ _ Hfits Hin) as [-> _].
Qed.

(** C2, where the code departs from it.  One atom of radius 1 at (8, 0, 0)
    with the sphere point (1, 0, 0), the point [generate_sphere_points]
    yields for [n_points = 1], on a grid of 14 x 1 x 1 cells of spacing
    0.7f.  The point lies at x = 9.0.  [roundf(9.0 / 0.7f)] is 13, and 9.0
    is within half a spacing of 13 times the spacing, so the nearest
    multiple of the spacing is the 13th and the voxel of the point is 13.
    Line 125 rounds the product [13 * 0.7f] to 9.0999994, line 130 rounds
    the quotient by 0.7f to 12.999999, and the cast truncates it to 12:
    [asa_frame] adds the value [(float)(4 pi)] to cell 12 and leaves cell 13
    at zero. *)
Theorem snapped_point_lands_one_voxel_below :
  centered lone_frame lone_point 0 0 (f_of_Z 1)
  = Fvec4 (f_of_Z 9) (f_of_Z 0) (f_of_Z 0) (f_of_Z 0)
  /\ froundf (fdiv (f_of_Z 9) f_0_7) = f_of_Z 13
  /\ (2 * 9 * 2 ^ 24 - 11744051 < 2 * 13 * 11744051
        < 2 * 9 * 2 ^ 24 + 11744051)%Z
  /\ fmul (f_of_Z 13) f_0_7 = S754_finite false 9542041 (-20)
  /\ fdiv (fmul (f_of_Z 13) f_0_7) f_0_7 = S754_finite false 13631487 (-20)
  /\ flt (fdiv (fmul (f_of_Z 13) f_0_7) f_0_7) (f_of_Z 13) = true
  /\ voxel_coord (f_of_Z 9) f_0_7 = 12%Z
  /\ voxel [14; 1; 1]%Z f_0_7 (Fvec4 (f_of_Z 9) (f_of_Z 0) (f_of_Z 0) (f_of_Z 0))
     = Some 12
  /\ asa_frame lone_frame 1 [f_of_Z 1] lone_point 1 [0%Z]
               (replicate 3 f_zero) [1%Z] (replicate 14 (f_of_Z 7))
               [14; 1; 1]%Z f_0_7
     = Done ([0%Z], [f_of_Z 9; f_zero; f_zero],
             <[12 := S754_finite false 13176795 (-20)]> (replicate 14 f_zero))
  /\ f_of_d (dmul (d_of_f (f_of_Z 4)) M_PI) = S754_finite false 13176795 (-20).
Proof.
  split; [vm_compute; reflexivity|]. split; [vm_compute; reflexivity|].
  split; [lia|]. split; [vm_compute; reflexivity|].
  split; [vm_compute; reflexivity|]. split; [vm_compute; reflexivity|].
  split; [vm_compute; reflexivity|]. split; [vm_compute; reflexivity|].
  split; vm_compute; reflexivity.
Qed.





Lemma bind_concat_fmap {A B} (f : A -> list B) (l : list A) :
  l ≫= f = concat (f <$> l).
Proof. induction l as [|x l IH]; [done|]. simpl. f_equal. apply IH. Qed.

Lemma sasa_grids_concat n_atoms atom_radii n_sphere_points atom_selection_mask
    counts grid_spacing (fs : list (list float)) :
  Forall (fun f => length f = 3 * Z.to_nat n_atoms) fs ->
  sasa_grids (Z.of_nat (length fs)) n_atoms (concat fs) atom_radii
             n_sphere_points atom_selection_mask counts grid_spacing
  = concat ((fun f => frame_grid f atom_radii (sphere_point_set n_sphere_points)
                        n_atoms n_sphere_points atom_selection_mask counts
                        grid_spacing) <$> fs).
Proof.
  intros Hall. unfold sasa_grids. rewrite Nat2Z.id, <- bind_concat_fmap.
  apply bind_seq_lookup. intros i f Hf. cbn [Nat.add].
  apply (frame_grid_agree (Z.to_nat n_atoms)); [|done].
  by apply frame_at_concat.
Qed.

Lemma sasa_aborts_concat n_atoms atom_selection_mask (fs : list (list float)) :
  Forall (fun f => length f = 3 * Z.to_nat n_atoms) fs ->
  sasa_aborts (Z.of_nat (length fs)) n_atoms (concat fs) atom_selection_mask
  <-> Exists (fun f => frame_aborts f n_atoms atom_selection_mask) fs.
Proof.
  intros Hall. unfold sasa_aborts. rewrite Nat2Z.id, !Exists_exists. split.
  - intros (i & Hi & Hab). apply elem_of_seq in Hi.
    destruct (lookup_lt_is_Some_2 fs i) as [f Hf]; [lia|].
    exists f. split; [by eapply list_elem_of_lookup_2|].
    eapply frame_aborts_agree; [|done|exact Hab].
    intros t Ht. symmetry. by apply frame_at_concat.
  - intros (f & Hin & Hab). apply list_elem_of_lookup in Hin as [i Hf].
    exists i. split; [apply elem_of_seq; apply lookup_lt_Some in Hf; lia|].
    eapply frame_aborts_agree; [|done|exact Hab].
    by apply frame_at_concat.
Qed.

Lemma sasa_frames n_atoms atom_radii n_sphere_points atom_selection_mask
    counts grid_spacing (fs : list (list float)) out junk_int junk_float :
  Forall (fun f => length f = 3 * Z.to_nat n_atoms) fs ->
  length out = length fs * Z.to_nat (total_grid_points counts) ->
  sasa (Z.of_nat (length fs)) n_atoms (concat fs) atom_radii n_sphere_points
       atom_selection_mask out counts grid_spacing junk_int junk_float
  = if decide (Exists (fun f => frame_aborts f n_atoms atom_selection_mask) fs)
    then Exited
    else Done (concat ((fun f => frame_grid f atom_radii
                                   (sphere_point_set n_sphere_points) n_atoms
                                   n_sphere_points atom_selection_mask counts
                                   grid_spacing) <$> fs)).
Proof.
  intros Hall Hout. case_decide as Hab.
  - apply sasa_exits; [rewrite Nat2Z.id; lia|].
    by rewrite sasa_aborts_concat.
  - rewrite sasa_done.
    + rewrite sasa_grids_concat by done.
      rewrite drop_ge by (rewrite Nat2Z.id; lia). by rewrite app_nil_r.
    + rewrite Nat2Z.id. lia.
    + by rewrite sasa_aborts_concat.
Qed.

Lemma fmap_lookup_total_seq {A} `{!Inhabited A} (l : list A) :
  (fun t => l !!! t) <$> seq 0 (length l) = l.
Proof.
  apply list_eq. intros i. rewrite list_lookup_fmap.
  destruct (decide (i < length l)) as [Hi|Hi].
  - rewrite lookup_seq_lt by done. simpl.
    by rewrite list_lookup_lookup_total_lt.
  - rewrite lookup_seq_ge, lookup_ge_None_2 by lia. done.
Qed.

(** C6. As long as the sizes and offsets of the run fit an [int]
    ([run_fits_int]: in particular [n_frames * total_grid_points] and
    [n_frames * n_atoms * 3]), the offsets of lines 215 and 217, computed in
    32-bit arithmetic, are [k * n_atoms * 3] and [k * total_grid_points] for
    every frame [k].  [sasa] clears the slice of a frame before the atoms of
    the frame are processed and writes nothing outside it, so what [out]
    held before the call does not show in the result, and neither do the
    contents of the fresh work buffers.  The slice of frame [k] is
    [frame_grid] of the coordinates of frame [k] and of the inputs all
    frames share.  Handing the frames over in another order [p] therefore
    yields the same grids in the positions [p] gives them (and a run that
    ends through [exit(1)] for one order ends so for every order). *)
Theorem frames_are_independent n_atoms atom_radii n_sphere_points
    atom_selection_mask counts grid_spacing (fs : list (list float))
    (p : list nat) out out' junk_int junk_float junk_int' junk_float' :
  let len := Z.to_nat (total_grid_points counts) in
  let grid f := frame_grid f atom_radii (sphere_point_set n_sphere_points)
                           n_atoms n_sphere_points atom_selection_mask counts
                           grid_spacing in
  let aborts := Exists (fun f => frame_aborts f n_atoms atom_selection_mask) fs in
  run_fits_int (Z.of_nat (length fs)) n_atoms n_sphere_points counts ->
  Forall (fun f => length f = 3 * Z.to_nat n_atoms) fs ->
  length out = length fs * len -> length out' = length fs * len ->
  p ≡ₚ seq 0 (length fs) ->
  (forall k, k < length fs ->
     int_xyz_offset k n_atoms = (Z.of_nat k * n_atoms * 3)%Z /\
     int_out_offset k counts = (Z.of_nat k * total_grid_points counts)%Z /\
     int_total_grid_points counts = total_grid_points counts)
  /\ sasa (Z.of_nat (length fs)) n_atoms (concat fs) atom_radii n_sphere_points
          atom_selection_mask out counts grid_spacing junk_int junk_float
     = (if decide aborts then Exited else Done (concat (grid <$> fs)))
  /\ sasa (Z.of_nat (length fs)) n_atoms
          (concat ((fun t => fs !!! t) <$> p)) atom_radii n_sphere_points
          atom_selection_mask out' counts grid_spacing junk_int' junk_float'
     = (if decide aborts then Exited
        else Done (concat ((fun t => grid (fs !!! t)) <$> p)))
  /\ Forall (fun g => length g = len) (grid <$> fs).
Proof.
  intros len grid aborts Hfits Hall Hout Hout' Hp.
  assert ((fun t => fs !!! t) <$> p ≡ₚ fs) as Hperm
    by (rewrite Hp; by rewrite fmap_lookup_total_seq).
  assert (length p = length fs) as Hlen by (by rewrite Hp, length_seq).
  split.
  { destruct Hfits as ((Hgrid & _) & Hout_fits & Hxyz & Hxyz3).
    intros k Hk. split; [|split].
    - apply (int_xyz_offset_fits (Z.of_nat (length fs))); [done..|lia].
    - apply (int_out_offset_fits (Z.of_nat (length fs))); [done..|lia].
    - by apply int_total_grid_points_fits. }
  split; [by apply sasa_frames|]. split.
  - pose proof (sasa_frames n_atoms atom_radii n_sphere_points
                  atom_selection_mask counts grid_spacing
                  ((fun t => fs !!! t) <$> p) out' junk_int' junk_float')
      as Hrun.
    rewrite length_fmap, Hlen, <- list_fmap_compose in Hrun.
    rewrite Hrun; [|by rewrite Hperm|done].
    apply decide_ext. unfold aborts. by rewrite Hperm.
  - apply Forall_fmap, Forall_forall. intros f _. unfold grid, len, compose.
    apply length_frame_grid.
Qed.

Lemma no_sphere_points_no_contributions frame atom_radii sphere_points n_atoms
    n_sphere_points atom_selection_mask counts grid_spacing :
  (n_sphere_points <= 0)%Z ->
  frame_grid frame atom_radii sphere_points n_atoms n_sphere_points
             atom_selection_mask counts grid_spacing
  = replicate (Z.to_nat (total_grid_points counts)) f_zero.
Proof.
  intros Hn. unfold frame_grid, frame_contributions.
  replace (_ ≫= _) with (@nil (nat * float)); [done|].
  symmetry. generalize (filter (selected atom_selection_mask)
                          (seq 0 (Z.to_nat n_atoms))) as l.
  induction l as [|i l IH]; [done|].
  rewrite bind_cons, IH. unfold atom_contributions.
  by replace (Z.to_nat n_sphere_points) with 0 by lia.
Qed.

Lemma bind_replicate {A B} (l : list A) (b : B) n :
  l ≫= (fun _ => replicate n b) = replicate (length l * n) b.
Proof.
  induction l as [|x l IH]; [done|].
  rewrite bind_cons, IH. simpl. by rewrite replicate_add.
Qed.

(** C9, as the code has it.  [sasa] checks nothing at its entry.  Whenever
    the arrays behind its pointers are at least as long as the loops index
    them (radii and mask may be longer than [n_atoms]) and the sizes of the
    run fit an [int], then whatever the spacing (zero and negative values
    included) and the number of sphere points, it generates the sphere
    points and hands every frame to [asa_frame], and the run ends with the
    grids of the frames or, when a selected atom has another atom on top of
    it, through [exit(1)]; no outcome rejects a configuration.  With no
    sphere point at all every frame is processed and its grid is left at
    zero. *)
Theorem sasa_runs_every_configuration n_frames n_atoms xyzlist atom_radii
    n_sphere_points atom_selection_mask out counts grid_spacing
    junk_int junk_float :
  run_fits_int n_frames n_atoms n_sphere_points counts ->
  3 <= length counts ->
  Z.to_nat n_frames * (3 * Z.to_nat n_atoms) <= length xyzlist ->
  Z.to_nat n_atoms <= length atom_radii ->
  Z.to_nat n_atoms <= length atom_selection_mask ->
  Z.to_nat n_frames * Z.to_nat (total_grid_points counts) <= length out ->
  sasa n_frames n_atoms xyzlist atom_radii n_sphere_points atom_selection_mask
       out counts grid_spacing junk_int junk_float
  = (if decide (sasa_aborts n_frames n_atoms xyzlist atom_selection_mask)
     then Exited
     else Done (sasa_grids n_frames n_atoms xyzlist atom_radii n_sphere_points
                           atom_selection_mask counts grid_spacing
                ++ drop (Z.to_nat n_frames
                         * Z.to_nat (total_grid_points counts)) out))
  /\ ((n_sphere_points <= 0)%Z ->
      sasa_grids n_frames n_atoms xyzlist atom_radii n_sphere_points
                 atom_selection_mask counts grid_spacing
      = replicate (Z.to_nat n_frames * Z.to_nat (total_grid_points counts))
                  f_zero).
Proof.
  intros _ _ _ _ _ Hout. split.
  - case_decide; [by apply sasa_exits|by apply sasa_done].
  - intros Hn. unfold sasa_grids.
    rewrite (bind_ext_in _
               (fun _ => replicate (Z.to_nat (total_grid_points counts)) f_zero))
      by (intros k _; by apply no_sphere_points_no_contributions).
    by rewrite bind_replicate, length_seq.
Qed.

(** C10. As long as [counts[0]*counts[1]] and
    [counts[0]*counts[1]*counts[2]] fit an [int], and with a grid of that
    many cells behind [out_grid], [asa_frame] never stores outside it: the
    bound of the first loop, computed in 32-bit arithmetic, is the size of
    the grid, and the loop writes the cells [0 .. total_grid_points - 1] and
    no other; a deposit passes the test of the three indices before it
    stores, and then its cell index, computed in 32-bit arithmetic, is
    [iz*counts[1]*counts[0] + iy*counts[0] + ix] and lies in
    [0, total_grid_points); no run of [asa_frame] ends in a store outside
    the grid, whatever the other arguments are. *)
Theorem grid_stores_in_range frame n_atoms atom_radii sphere_points
    n_sphere_points neighbor_indices centered_sphere_points
    atom_selection_mask out_grid counts grid_spacing :
  grid_fits_int counts ->
  length out_grid = Z.to_nat (int_total_grid_points counts) ->
  int_total_grid_points counts
  = (counts !!! 0%nat * counts !!! 1%nat * counts !!! 2%nat)%Z
  /\ for_range (Z.to_nat (int_total_grid_points counts))
               (fun i g => store OutGrid g i f_zero) out_grid
     = Done (replicate (Z.to_nat (int_total_grid_points counts)) f_zero)
  /\ (forall ix iy iz,
        in_bounds counts ix iy iz = true ->
        int_grid_index counts ix iy iz
        = (iz * counts !!! 1%nat * counts !!! 0%nat
           + iy * counts !!! 0%nat + ix)%Z
        /\ (0 <= int_grid_index counts ix iy iz
              <= int_total_grid_points counts - 1)%Z)
  /\ (forall p constant atom_radius_i g,
        length g = Z.to_nat (int_total_grid_points counts) ->
        exists g', deposit counts grid_spacing constant atom_radius_i p g
                   = Done g' /\ length g' = length g)
  /\ faults_on OutGrid
       (asa_frame frame n_atoms atom_radii sphere_points n_sphere_points
                  neighbor_indices centered_sphere_points atom_selection_mask
                  out_grid counts grid_spacing) = false.
Proof.
  intros Hfits. rewrite (int_total_grid_points_fits counts Hfits).
  intros Hlen. split; [done|]. split; [|split; [|split]].
  - rewrite <- Hlen. apply zero_loop_all.
  - intros ix iy iz Hb.
    rewrite <- (int_total_grid_points_fits counts Hfits).
    by apply int_grid_index_fits.
  - intros p constant atom_radius_i g Hg. rewrite deposit_spec by done.
    eexists; split; [done|].
    destruct (voxel _ _ _); [by rewrite length_add_at|done].
  - eapply safe_no_fault. by apply asa_frame_safe.
Qed.

(** ** A sphere point that is not on the sphere *)

Lemma sphere_point_set_lookup n_points i :
  (0 <= i < n_points)%Z ->
  sphere_point_set n_points !!! (3 * Z.to_nat i) = sphere_x n_points i /\
  sphere_point_set n_points !!! (3 * Z.to_nat i + 1)
  = sphere_y (sphere_offset n_points) i /\
  sphere_point_set n_points !!! (3 * Z.to_nat i + 2) = sphere_z n_points i.
Proof.
  intros Hi. unfold sphere_point_set.
  destruct (lookup_triples
              (fun i => sphere_x n_points (Z.of_nat i))
              (fun i => sphere_y (sphere_offset n_points) (Z.of_nat i))
              (fun i => sphere_z n_points (Z.of_nat i))
              (Z.to_nat n_points) (Z.to_nat i)) as (Hx & Hy & Hz); [lia|].
  rewrite Z2Nat.id in Hx, Hy, Hz by lia. done.
Qed.

Lemma sphere_y_above_one :
  sphere_y (sphere_offset 13103685) 13103684 = S754_finite false 8388609 (-23).
Proof. vm_compute. reflexivity. Qed.

Lemma mul_nan (c : double) : f_of_d (dmul c (d_of_f S754_nan)) = S754_nan.
Proof. by destruct c. Qed.

(** C4 at [n_points = 13103685].  For the last point, [i = 13103684], the
    roundings of line 173 give [y = 1 + 2^-23]; [1.0 - y*y] is negative, so
    line 174 takes the square root of a negative number, [r] is NaN, and
    the x and z coordinates stored for the point are NaN whatever [cos] and
    [sin] return.  The radius of the specification, [sqrt(max(0, 1 - y*y))],
    is 0 for this [y]. *)
Theorem last_sphere_point_is_nan junk_float :
  let n_points := 13103685%Z in
  let i := 13103684%Z in
  let y := sphere_y (sphere_offset n_points) i in
  y = S754_finite false 8388609 (-23)
  /\ flt (f_of_Z 1) y = true
  /\ sphere_r y = S754_nan
  /\ sphere_r_clamped y = f_zero
  /\ generate_sphere_points (malloc junk_float (n_points * 3)) n_points
     = Done (sphere_point_set n_points)
  /\ sphere_point_set n_points !!! (3 * Z.to_nat i) = S754_nan
  /\ sphere_point_set n_points !!! (3 * Z.to_nat i + 1) = y
  /\ sphere_point_set n_points !!! (3 * Z.to_nat i + 2) = S754_nan.
Proof.
  cbv zeta.
  pose proof sphere_y_above_one as Hy.
  assert (sphere_r (S754_finite false 8388609 (-23)) = S754_nan) as Hr
    by (vm_compute; reflexivity).
  destruct (sphere_point_set_lookup 13103685 13103684) as (Hx' & Hy' & Hz');
    [lia|].
  assert (sphere_x 13103685 13103684 = S754_nan) as Hxn
    by (unfold sphere_x; rewrite Hy, Hr; apply mul_nan).
  assert (sphere_z 13103685 13103684 = S754_nan) as Hzn
    by (unfold sphere_z; rewrite Hy, Hr; apply mul_nan).
  split; [exact Hy|]. split; [rewrite Hy; vm_compute; reflexivity|].
  split; [rewrite Hy; exact Hr|].
  split; [rewrite Hy; vm_compute; reflexivity|].
  split; [apply generate_sphere_points_filled; rewrite length_malloc; lia|].
  split; [exact (eq_trans Hx' Hxn)|].
  split; [exact Hy'|exact (eq_trans Hz' Hzn)].
Qed.

(** ** Further properties of [asa_frame] *)










(** X6.  On a grid whose size fits an [int] ([grid_fits_int]), the cell
    index of a point inside the grid, as line 137 computes it in 32-bit
    arithmetic, determines its voxel: x runs fastest, so [index mod nx],
    [(index / nx) mod ny] and [index / (nx * ny)] are the three voxel
    coordinates, and two points share a cell only if they share the
    voxel. *)
Theorem cell_index_decodes counts grid_spacing p c :
  grid_fits_int counts ->
  voxel counts grid_spacing p = Some c ->
  let nx := counts !!! 0%nat in
  let ny := counts !!! 1%nat in
  let index := int_grid_index counts (voxel_coord (v0 p) grid_spacing)
                 (voxel_coord (v1 p) grid_spacing)
                 (voxel_coord (v2 p) grid_spacing) in
  index = Z.of_nat c
  /\ (index mod nx = voxel_coord (v0 p) grid_spacing /\
      (index / nx) mod ny = voxel_coord (v1 p) grid_spacing /\
      index / (nx * ny) = voxel_coord (v2 p) grid_spacing)%Z
  /\ forall p', voxel counts grid_spacing p' = Some c ->
       voxel_coord (v0 p') grid_spacing = voxel_coord (v0 p) grid_spacing /\
       voxel_coord (v1 p') grid_spacing = voxel_coord (v1 p) grid_spacing /\
       voxel_coord (v2 p') grid_spacing = voxel_coord (v2 p) grid_spacing.
Proof.
  intros Hfits.
  assert (forall q,
    voxel counts grid_spacing q = Some c ->
    int_grid_index counts (voxel_coord (v0 q) grid_spacing)
      (voxel_coord (v1 q) grid_spacing) (voxel_coord (v2 q) grid_spacing)
    = Z.of_nat c /\
    (Z.of_nat c mod counts !!! 0%nat = voxel_coord (v0 q) grid_spacing /\
     (Z.of_nat c / counts !!! 0%nat) mod counts !!! 1%nat
     = voxel_coord (v1 q) grid_spacing /\
     Z.of_nat c / (counts !!! 0%nat * counts !!! 1%nat)
     = voxel_coord (v2 q) grid_spacing)%Z) as Hdecode.
  { intros q. unfold voxel.
    generalize (voxel_coord (v0 q) grid_spacing) as ix.
    generalize (voxel_coord (v1 q) grid_spacing) as iy.
    generalize (voxel_coord (v2 q) grid_spacing) as iz.
    intros iz iy ix. destruct (in_bounds counts ix iy iz) eqn:Hin; [|done].
    destruct (int_grid_index_fits counts ix iy iz Hfits Hin) as [-> _].
    apply in_bounds_spec in Hin as (Hx & Hy & Hz). intros [= <-].
    set (nx := counts !!! 0%nat) in *. set (ny := counts !!! 1%nat) in *.
    assert (0 <= iz * ny)%Z as Hzy by (apply Z.mul_nonneg_nonneg; lia).
    assert (0 <= (iz * ny + iy) * nx)%Z as Hzyx
      by (apply Z.mul_nonneg_nonneg; lia).
    replace (iz * ny * nx + iy * nx + ix)%Z
      with (ix + (iz * ny + iy) * nx)%Z by ring.
    rewrite Z2Nat.id by lia. split; [done|].
    rewrite <- Z.div_div by lia.
    rewrite Z.mod_add, Z.div_add by lia.
    rewrite (Z.mod_small ix), (Z.div_small ix), Z.add_0_l by lia.
    replace (iz * ny + iy)%Z with (iy + iz * ny)%Z by ring.
    rewrite Z.mod_add, Z.div_add by lia.
    rewrite (Z.mod_small iy), (Z.div_small iy) by lia. lia. }
  intros Hp. cbv zeta. destruct (Hdecode p Hp) as [Hidx Hdec].
  rewrite Hidx. split; [done|]. split; [done|].
  intros p' Hp'. apply Hdecode in Hp' as [_ Hdec']. lia.
Qed.

(** ** Further properties of [generate_sphere_points] and [sasa] *)

Lemma triple_loop_short {A} `{!Inhabited A} b (fx fy fz : nat -> A)
    (body : nat -> list A -> outcome (list A)) n (buf : list A) :
  (forall j c, body j c =
     c1 ← store b c (3 * j) (fx j);
     c2 ← store b c1 (3 * j + 1) (fy j);
     store b c2 (3 * j + 2) (fz j)) ->
  length buf < 3 * n ->
  for_range n body buf = Fault b.
Proof.
  intros Hbody. induction n as [|n IH]; intros Hlen; [lia|].
  rewrite for_range_S.
  destruct (decide (length buf < 3 * n)) as [Hs|Hs]; [by rewrite IH|].
  destruct (triple_loop b fx fy fz body n buf Hbody) as (buf1 & -> & Hlen1 & _);
    [lia|].
  rewrite bind_done, Hbody.
  destruct (decide (3 * n < length buf1));
    [|rewrite store_fault; [done|lia]].
  rewrite store_done, bind_done by lia.
  destruct (decide (3 * n + 1 < length buf1));
    [|rewrite store_fault; [done|rewrite length_insert; lia]].
  rewrite store_done, bind_done by (rewrite length_insert; lia).
  rewrite store_fault; [done|rewrite !length_insert; lia].
Qed.

Lemma length_sphere_point_set n_points :
  length (sphere_point_set n_points) = 3 * Z.to_nat n_points.
Proof. unfold sphere_point_set. by rewrite length_triples. Qed.

Lemma generate_sphere_points_eq sphere_points n_points :
  generate_sphere_points sphere_points n_points
  = if decide (3 * Z.to_nat n_points <= length sphere_points)
    then Done (sphere_point_set n_points
               ++ drop (3 * Z.to_nat n_points) sphere_points)
    else Fault SpherePoints.
Proof.
  case_decide as Hlen.
  - destruct (generate_sphere_points_spec sphere_points n_points)
      as (sp & -> & Hsp & Hpts & Hrest); [done|].
    f_equal. apply list_eq. intros k.
    pose proof (length_sphere_point_set n_points) as Hset.
    destruct (decide (k < 3 * Z.to_nat n_points)) as [Hk|Hk].
    + rewrite lookup_app_l by lia.
      rewrite !list_lookup_lookup_total_lt by lia. f_equal.
      pose proof (Nat.div_mod_eq k 3) as Hdm.
      pose proof (Nat.mod_upper_bound k 3 ltac:(lia)) as Hm.
      destruct (Hpts (k / 3)) as (Hx & Hy & Hz); [lia|].
      destruct (sphere_point_set_lookup n_points (Z.of_nat (k / 3)))
        as (Hx' & Hy' & Hz'); [lia|].
      rewrite Nat2Z.id in Hx', Hy', Hz'.
      destruct (k mod 3) as [|[|[|]]] eqn:Hmod; [| | |lia].
      * replace k with (3 * (k / 3)) by lia. by rewrite Hx, Hx'.
      * replace k with (3 * (k / 3) + 1) by lia. by rewrite Hy, Hy'.
      * replace k with (3 * (k / 3) + 2) by lia. by rewrite Hz, Hz'.
    + rewrite lookup_app_r, lookup_drop, Hrest by lia. f_equal. lia.
  - unfold generate_sphere_points.
    apply (triple_loop_short SpherePoints
             (fun i => sphere_x n_points (Z.of_nat i))
             (fun i => sphere_y (sphere_offset n_points) (Z.of_nat i))
             (fun i => sphere_z n_points (Z.of_nat i))); [done|lia].
Qed.

Lemma asa_frame_short_grid frame n_atoms atom_radii sphere_points
    n_sphere_points nb cb atom_selection_mask g counts grid_spacing :
  length g < Z.to_nat (total_grid_points counts) ->
  asa_frame frame n_atoms atom_radii sphere_points n_sphere_points nb cb
            atom_selection_mask g counts grid_spacing = Fault OutGrid.
Proof. intros Hg. unfold asa_frame. by rewrite zero_loop_short. Qed.

Lemma for_loop_stops {S} (body : nat -> S -> outcome S) l1 l2 s :
  (forall s', for_loop body l1 s <> Done s') ->
  for_loop body (l1 ++ l2) s = for_loop body l1 s.
Proof.
  intros Hstop. rewrite for_loop_app.
  destruct (for_loop body l1 s) as [s'| |b]; [by destruct (Hstop s')|done..].
Qed.

Lemma frame_loop_short n_atoms xyzlist atom_radii sphere_points n_sphere_points
    atom_selection_mask counts grid_spacing wb1 wb2 out n :
  Z.to_nat n_atoms <= length wb1 ->
  3 * Z.to_nat n_sphere_points <= length wb2 ->
  length out < n * Z.to_nat (total_grid_points counts) ->
  for_range n
    (frame_body n_atoms xyzlist atom_radii sphere_points n_sphere_points
                atom_selection_mask counts grid_spacing
                (total_grid_points counts)) (wb1, wb2, out)
  = if decide (Exists (fun i => frame_aborts (frame_at xyzlist n_atoms i)
                                  n_atoms atom_selection_mask)
                 (seq 0 (length out / Z.to_nat (total_grid_points counts))))
    then Exited else Fault OutGrid.
Proof.
  intros Hwb1 Hwb2 Hout.
  set (len := Z.to_nat (total_grid_points counts)) in *.
  set (k := length out / len).
  assert (0 < len) as Hlen by lia.
  assert (k * len <= length out) as Hlo
    by (rewrite Nat.mul_comm; apply Nat.Div0.mul_div_le).
  assert (length out < k * len + len) as Hhi.
  { pose proof (Nat.mul_succ_div_gt (length out) len ltac:(lia)). unfold k. lia. }
  assert (k < n) as Hk by nia.
  set (body := frame_body _ _ _ _ _ _ _ _ _).
  assert (for_range (S k) body (wb1, wb2, out)
          = if decide (Exists (fun i => frame_aborts (frame_at xyzlist n_atoms i)
                                          n_atoms atom_selection_mask) (seq 0 k))
            then Exited else Fault OutGrid) as Hrun.
  { rewrite for_range_S. unfold body. case_decide as Hab.
    - by rewrite frame_loop_exits.
    - destruct (frame_loop_done n_atoms xyzlist atom_radii sphere_points
                  n_sphere_points atom_selection_mask counts grid_spacing
                  wb1 wb2 out k) as (wb1' & wb2' & -> & _); [done..|].
      rewrite bind_done, frame_body_eq. fold len.
      rewrite asa_frame_short_grid; [done|]. fold len.
      rewrite length_take, length_drop, length_app, length_drop.
      rewrite (length_bind_const _ _ len), length_seq
        by (intros i; apply length_frame_grid).
      lia. }
  unfold for_range in *.
  replace n with (S k + (n - S k)) by lia.
  rewrite seq_app, for_loop_stops
    by (intros s'; rewrite Hrun; by case_decide).
  exact Hrun.
Qed.

(** X7.  [generate_sphere_points] writes the cells [0 .. 3 * n_points - 1]
    of its array, point after point, and no other cell; for
    [n_points <= 0] it writes nothing; on an array of fewer than
    [3 * n_points] cells it stores outside the array. *)
Theorem generate_sphere_points_footprint sphere_points n_points :
  generate_sphere_points sphere_points n_points
  = (if decide (3 * Z.to_nat n_points <= length sphere_points)
     then Done (sphere_point_set n_points
                ++ drop (3 * Z.to_nat n_points) sphere_points)
     else Fault SpherePoints)
  /\ length (sphere_point_set n_points) = 3 * Z.to_nat n_points
  /\ ((n_points <= 0)%Z ->
      generate_sphere_points sphere_points n_points = Done sphere_points).
Proof.
  split; [apply generate_sphere_points_eq|].
  split; [apply length_sphere_point_set|].
  intros Hn. rewrite generate_sphere_points_eq, decide_True by lia.
  unfold sphere_point_set. by replace (Z.to_nat n_points) with 0 by lia.
Qed.


(** X9.  The three buffers [sasa] allocates are never overrun: for every
    input, with [out] of any length, the only store outside a buffer that
    a run can make is one into [out]. *)
Theorem sasa_own_buffers_suffice n_frames n_atoms xyzlist atom_radii
    n_sphere_points atom_selection_mask out counts grid_spacing
    junk_int junk_float :
  match sasa n_frames n_atoms xyzlist atom_radii n_sphere_points
             atom_selection_mask out counts grid_spacing junk_int junk_float
  with
  | Fault b => b = OutGrid
           /\ length out
              < Z.to_nat n_frames * Z.to_nat (total_grid_points counts)
  | Done out' => length out' = length out
  | Exited => True
  end.
Proof.
  destruct (decide (Z.to_nat n_frames * Z.to_nat (total_grid_points counts)
                    <= length out)) as [Hout|Hout].
  - destruct (decide (sasa_aborts n_frames n_atoms xyzlist atom_selection_mask)).
    + by rewrite sasa_exits.
    + rewrite sasa_done by done.
      rewrite length_app, length_drop. unfold sasa_grids.
      rewrite (length_bind_const _ _ (Z.to_nat (total_grid_points counts))),
        length_seq by (intros i; apply length_frame_grid).
      lia.
  - unfold sasa. destruct (sasa_buffers n_sphere_points) as [Hsp Hwb2].
    rewrite generate_sphere_points_filled, bind_done
      by (by rewrite length_malloc).
    rewrite frame_loop_short by (rewrite ?length_malloc; lia).
    case_decide; [done|]. split; [done|lia].
Qed.

(** X10.  Runs compose, as long as the sizes and offsets of the combined
    run fit an [int] ([run_fits_int], which bounds
    [n_frames * total_grid_points] and [n_frames * n_atoms * 3] for the
    frames of both runs together): the run over the frames [fs1 ++ fs2]
    returns the grids of the run over [fs1] followed by those of the run
    over [fs2], and leaves the process when one of the two runs does; the
    offsets of lines 215 and 217 are then the same in 32-bit arithmetic as
    in [Z], in the combined run and in the two separate runs. *)
Theorem sasa_batches_compose n_atoms atom_radii n_sphere_points
    atom_selection_mask counts grid_spacing (fs1 fs2 : list (list float))
    out out1 out2 junk_int junk_float :
  run_fits_int (Z.of_nat (length (fs1 ++ fs2))) n_atoms n_sphere_points
               counts ->
  Forall (fun f => length f = 3 * Z.to_nat n_atoms) fs1 ->
  Forall (fun f => length f = 3 * Z.to_nat n_atoms) fs2 ->
  length out1 = length fs1 * Z.to_nat (total_grid_points counts) ->
  length out2 = length fs2 * Z.to_nat (total_grid_points counts) ->
  length out = length (fs1 ++ fs2) * Z.to_nat (total_grid_points counts) ->
  sasa (Z.of_nat (length (fs1 ++ fs2))) n_atoms (concat (fs1 ++ fs2))
       atom_radii n_sphere_points atom_selection_mask out counts grid_spacing
       junk_int junk_float
  = (g1 ← sasa (Z.of_nat (length fs1)) n_atoms (concat fs1) atom_radii
               n_sphere_points atom_selection_mask out1 counts grid_spacing
               junk_int junk_float;
     g2 ← sasa (Z.of_nat (length fs2)) n_atoms (concat fs2) atom_radii
               n_sphere_points atom_selection_mask out2 counts grid_spacing
               junk_int junk_float;
     Done (g1 ++ g2))
  /\ run_fits_int (Z.of_nat (length fs1)) n_atoms n_sphere_points counts
  /\ run_fits_int (Z.of_nat (length fs2)) n_atoms n_sphere_points counts
  /\ forall k, k < length (fs1 ++ fs2) ->
       int_xyz_offset k n_atoms = (Z.of_nat k * n_atoms * 3)%Z /\
       int_out_offset k counts = (Z.of_nat k * total_grid_points counts)%Z.
Proof.
  intros Hfits Hfs1 Hfs2 Hout1 Hout2 Hout.
  assert (forall m, m <= length (fs1 ++ fs2) ->
            run_fits_int (Z.of_nat m) n_atoms n_sphere_points counts) as Hsub.
  { intros m Hm. destruct Hfits as (Hframe & Hgrid & Hxyz & Hxyz3).
    split; [done|]. split; [|split].
    - apply (fits_int_scaled _ _ _ Hgrid). lia.
    - apply (fits_int_scaled _ _ _ Hxyz). lia.
    - rewrite <- Z.mul_assoc. rewrite <- Z.mul_assoc in Hxyz3.
      apply (fits_int_scaled _ _ _ Hxyz3). lia. }
  split; [|split; [|split]].
  - rewrite !sasa_frames by (done || by apply Forall_app).
    rewrite fmap_app, concat_app.
    repeat case_decide; try done; rewrite Exists_app in *; taut.
  - apply Hsub. rewrite length_app. lia.
  - apply Hsub. rewrite length_app. lia.
  - destruct Hfits as ((Hgrid & _) & Hout_fits & Hxyz & Hxyz3).
    intros k Hk. split.
    + apply (int_xyz_offset_fits (Z.of_nat (length (fs1 ++ fs2))));
        [done..|lia].
    + apply (int_out_offset_fits (Z.of_nat (length (fs1 ++ fs2))));
        [done..|lia].
Qed.

(** ** What [asa_frame] reads *)

Section Reads.

Variables (n n_points : nat).
Variables (frame frame' radii radii' points points' : list float).
Variables (mask mask' : list Z).
Hypothesis Hframe : agree n frame frame'.
Hypothesis Hradii : forall i, i < n -> radii !!! i = radii' !!! i.
Hypothesis Hpoints :
  forall k, k < 3 * n_points -> points !!! k = points' !!! k.
Hypothesis Hmask :
  forall i, i < n -> mask !!! i = 0%Z <-> mask' !!! i = 0%Z.

Lemma within_cutoff_reads i j :
  i < n -> j < n ->
  within_cutoff frame radii i j = within_cutoff frame' radii' i j.
Proof using Hframe Hradii.
  intros Hi Hj. unfold within_cutoff.
  by rewrite (r2_agree n frame frame' Hframe), !Hradii.
Qed.

Lemma neighbors_reads n_atoms i :
  Z.to_nat n_atoms = n -> i < n ->
  neighbors frame radii n_atoms i = neighbors frame' radii' n_atoms i.
Proof using Hframe Hradii.
  intros Hn Hi. unfold neighbors. apply filter_ext_in.
  intros j Hj%elem_of_seq. by rewrite within_cutoff_reads by lia.
Qed.

Lemma exposed_reads nbrs p :
  (forall nb, nb ∈ nbrs -> nb < n) ->
  exposed frame radii nbrs p = exposed frame' radii' nbrs p.
Proof using Hframe Hradii.
  intros Hnb. unfold exposed. apply forallb_ext_in. intros nb Hin.
  unfold occludes.
  by rewrite (load3_agree n frame frame' Hframe), Hradii by by apply Hnb.
Qed.

Lemma point_contribution_reads n_atoms counts grid_spacing constant i j :
  Z.to_nat n_atoms = n -> i < n -> j < n_points ->
  point_contribution frame radii points n_atoms counts grid_spacing constant
                     i j
  = point_contribution frame' radii' points' n_atoms counts grid_spacing
                       constant i j.
Proof using Hframe Hradii Hpoints.
  intros Hn Hi Hj. unfold point_contribution.
  rewrite <- neighbors_reads, <- exposed_reads, <- Hradii by
    (done || (intros nb [_ Hnb%elem_of_seq]%list_elem_of_filter; lia)).
  unfold centered. rewrite !Hframe, !Hpoints by lia. done.
Qed.

Lemma frame_grid_reads n_atoms n_sphere_points counts grid_spacing :
  Z.to_nat n_atoms = n -> Z.to_nat n_sphere_points = n_points ->
  frame_grid frame radii points n_atoms n_sphere_points mask counts
             grid_spacing
  = frame_grid frame' radii' points' n_atoms n_sphere_points mask' counts
               grid_spacing.
Proof using Hframe Hradii Hpoints Hmask.
  intros Hn Hp. unfold frame_grid, frame_contributions. f_equal.
  rewrite (filter_ext_in (selected mask) (selected mask'))
    by (intros i Hi%elem_of_seq; unfold selected; rewrite Hmask by lia; done).
  apply bind_ext_in. intros i [_ Hi%elem_of_seq]%list_elem_of_filter.
  unfold atom_contributions. apply bind_ext_in. intros j Hj%elem_of_seq.
  apply point_contribution_reads; lia.
Qed.

Lemma frame_aborts_reads n_atoms :
  Z.to_nat n_atoms = n ->
  frame_aborts frame n_atoms mask <-> frame_aborts frame' n_atoms mask'.
Proof using Hframe Hmask.
  intros Hn. rewrite (frame_aborts_agree n frame frame' Hframe) by done.
  unfold frame_aborts. apply Exists_ext_in. intros i Hi%elem_of_seq.
  unfold selected. rewrite Hmask by lia. done.
Qed.

End Reads.

(** X11.  [asa_frame] reads the first [3 * n_atoms] coordinates of the
    frame, the first [n_atoms] radii, the first [3 * n_sphere_points]
    sphere-point coordinates, and of the first [n_atoms] mask entries only
    whether they are zero: two calls whose inputs agree there end alike. *)
Theorem asa_frame_reads_only_its_ranges frame frame' atom_radii atom_radii'
    sphere_points sphere_points' atom_selection_mask atom_selection_mask'
    n_atoms n_sphere_points nb cb g counts grid_spacing :
  Z.to_nat n_atoms <= length nb ->
  3 * Z.to_nat n_sphere_points <= length cb ->
  length g = Z.to_nat (total_grid_points counts) ->
  (forall k, k < 3 * Z.to_nat n_atoms -> frame !!! k = frame' !!! k) ->
  (forall i, i < Z.to_nat n_atoms -> atom_radii !!! i = atom_radii' !!! i) ->
  (forall k, k < 3 * Z.to_nat n_sphere_points ->
             sphere_points !!! k = sphere_points' !!! k) ->
  (forall i, i < Z.to_nat n_atoms ->
             atom_selection_mask !!! i = 0%Z
             <-> atom_selection_mask' !!! i = 0%Z) ->
  (fun st => st.2) <$>
    asa_frame frame n_atoms atom_radii sphere_points n_sphere_points nb cb
              atom_selection_mask g counts grid_spacing
  = (fun st => st.2) <$>
    asa_frame frame' n_atoms atom_radii' sphere_points' n_sphere_points nb cb
              atom_selection_mask' g counts grid_spacing.
Proof.
  intros Hnb Hcb Hg Hframe Hradii Hpoints Hmask.
  pose proof (frame_aborts_reads _ frame frame' atom_selection_mask
                atom_selection_mask' Hframe Hmask n_atoms eq_refl) as Hab.
  pose proof (frame_grid_reads _ _ frame frame' atom_radii atom_radii'
                sphere_points sphere_points' atom_selection_mask
                atom_selection_mask' Hframe Hradii Hpoints Hmask n_atoms
                n_sphere_points counts grid_spacing eq_refl eq_refl) as Hgrid.
  destruct (decide (frame_aborts frame n_atoms atom_selection_mask))
    as [Hex|Hex].
  - by rewrite !asa_frame_exits by (done || by apply Hab).
  - destruct (asa_frame_done frame n_atoms atom_radii sphere_points
                n_sphere_points nb cb atom_selection_mask g counts
                grid_spacing) as (? & ? & -> & _); [done..|].
    destruct (asa_frame_done frame' n_atoms atom_radii' sphere_points'
                n_sphere_points nb cb atom_selection_mask' g counts
                grid_spacing) as (? & ? & -> & _); [done..|by rewrite <- Hab|].
    cbn. by rewrite Hgrid.
Qed.

(** X12.  An atom [a] that is neither within the cutoff of the selected
    atom [i] nor on top of it has no part in what atom [i] adds: moving
    [a], as long as it stays outside the cutoff, leaves the iteration of
    the atom loop for [i] with the same grid. *)
Theorem atom_outside_cutoff_has_no_effect frame frame' atom_radii
    sphere_points n_atoms n_sphere_points atom_selection_mask counts
    grid_spacing constant i a nb cb g :
  atom_selection_mask !!! i <> 0%Z ->
  Z.to_nat n_atoms <= length nb ->
  3 * Z.to_nat n_sphere_points <= length cb ->
  length g = Z.to_nat (total_grid_points counts) ->
  i < Z.to_nat n_atoms ->
  (forall k, k < Z.to_nat n_atoms -> k <> a ->
             load3 frame k = load3 frame' k) ->
  i <> a ->
  within_cutoff frame atom_radii i a = false ->
  within_cutoff frame' atom_radii i a = false ->
  coincident frame i a = false ->
  coincident frame' i a = false ->
  (fun st => st.2) <$>
    atom_body frame atom_radii sphere_points n_atoms n_sphere_points
              atom_selection_mask counts grid_spacing constant i (nb, cb, g)
  = (fun st => st.2) <$>
    atom_body frame' atom_radii sphere_points n_atoms n_sphere_points
              atom_selection_mask counts grid_spacing constant i (nb, cb, g).
Proof.
  intros Hsel Hnb Hcb Hg Hi Hsame Hia Hcut Hcut' Hco Hco'.
  assert (forall j, j < Z.to_nat n_atoms -> j <> a ->
                    r2 frame i j = r2 frame' i j) as Hr2
    by (intros j Hj Hja; unfold r2; by rewrite !Hsame).
  assert (scan_aborts frame n_atoms i <-> scan_aborts frame' n_atoms i) as Hab.
  { unfold scan_aborts. apply Exists_ext_in. intros j Hj%elem_of_seq.
    destruct (decide (j = a)) as [->|Hja]; [by rewrite Hco, Hco'|].
    unfold coincident. by rewrite Hr2 by lia. }
  assert (neighbors frame atom_radii n_atoms i
          = neighbors frame' atom_radii n_atoms i) as Hnbrs.
  { unfold neighbors. apply filter_ext_in. intros j Hj%elem_of_seq.
    destruct (decide (j = a)) as [->|Hja]; [by rewrite Hcut, Hcut'|].
    unfold within_cutoff. by rewrite Hr2 by lia. }
  destruct (decide (scan_aborts frame n_atoms i)) as [Hex|Hex].
  - by rewrite !atom_body_exits by (done || by apply Hab).
  - destruct (atom_body_done frame atom_radii sphere_points n_atoms
                n_sphere_points atom_selection_mask counts grid_spacing
                constant i nb cb g) as (? & ? & -> & _); [done..|].
    destruct (atom_body_done frame' atom_radii sphere_points n_atoms
                n_sphere_points atom_selection_mask counts grid_spacing
                constant i nb cb g) as (? & ? & -> & _);
      [done..|by rewrite <- Hab|].
    cbn. do 2 f_equal. unfold atom_contributions. apply bind_ext_in.
    intros j _. unfold point_contribution. rewrite <- Hnbrs.
    pose proof (f_equal v0 (Hsame i Hi Hia)) as H0.
    pose proof (f_equal v1 (Hsame i Hi Hia)) as H1.
    pose proof (f_equal v2 (Hsame i Hi Hia)) as H2.
    unfold load3 in H0, H1, H2. cbn [v0 v1 v2] in H0, H1, H2.
    assert (centered frame sphere_points i j (atom_radii !!! i)
            = centered frame' sphere_points i j (atom_radii !!! i)) as <-
      by (unfold centered; by rewrite H0, H1, H2).
    assert (forall p, exposed frame atom_radii
                        (neighbors frame atom_radii n_atoms i) p
                      = exposed frame' atom_radii
                          (neighbors frame atom_radii n_atoms i) p) as <-;
      [|done].
    intros p. unfold exposed. apply forallb_ext_in.
    intros k [[_ Hk] Hk'%elem_of_seq]%list_elem_of_filter. unfold occludes.
    rewrite Hsame; [done|lia|]. intros ->. by rewrite Hcut in Hk.
Qed.

End Program.


(** ** The properties on concrete inputs *)

(** A decidable statement about concrete inputs, settled by evaluation. *)
Ltac by_evaluation :=
  match goal with
  | |- ?Q => apply (bool_decide_unpack Q); vm_compute; exact I
  end.

(** One atom of radius 1 at (1, 1, 1) with the six axis points, on a grid of
    3 x 3 x 3 cells of spacing 1: each point falls into the cell next to the
    centre cell and adds [(float)(4 pi / 6)] there. *)
Example asa_frame_single_atom :
  (fun st => st.2)
    <$> asa_frame dot3_in_order (f_of_Z <$> [1; 1; 1]%Z) 1 [f_of_Z 1]
                  axis_points 6 [0%Z] (replicate 18 f_zero) [1%Z] used_grid
                  [3; 3; 3]%Z (f_of_Z 1)
  = Done (deposit_all (replicate 27 f_zero)
            ((fun c => (c, area_constant 6)) <$> [14; 12; 16; 10; 22; 4])).
Proof. vm_compute. reflexivity. Qed.

Lemma neighbor_scan_collects_close_atoms_witness :
  Z.to_nat 2 <= length [0; 0]%Z /\
  let scan :=
    for_range (Z.to_nat 2)
      (neighbor_body dot3_in_order pair_frame unit_radii 0 (unit_radii !!! 0)
                     (load3 pair_frame 0))
      ([0; 0]%Z, 0) in
  let nbrs := neighbors dot3_in_order pair_frame unit_radii 2 0 in
  (forall j, j ∈ nbrs <->
     j < Z.to_nat 2 /\ j <> 0 /\
     flt (r2 dot3_in_order pair_frame 0 j)
         (fmul (fadd (unit_radii !!! 0) (unit_radii !!! j))
               (fadd (unit_radii !!! 0) (unit_radii !!! j))) = true) /\
  StronglySorted lt nbrs /\
  (if decide (scan_aborts dot3_in_order pair_frame 2 0) then scan = Exited
   else exists nb', scan = Done (nb', length nbrs) /\
                    take (length nbrs) nb' = Z.of_nat <$> nbrs).
Proof.
  split; [by_evaluation|].
  apply (neighbor_scan_collects_close_atoms dot3_in_order). by_evaluation.
Defined.

Lemma exposed_points_accumulate_witness :
  Z.to_nat 2 <= length [0; 0]%Z /\
  3 * Z.to_nat 6 <= length (replicate 18 f_zero) /\
  frame_fits_int 2 6 [3; 3; 3]%Z /\
  length used_grid = Z.to_nat (int_total_grid_points [3; 3; 3]%Z) /\
  ~ frame_aborts dot3_in_order pair_frame 2 [1; 1]%Z /\
  let coord c :=
    int_of_float
      (fdiv (fmul (froundf (fdiv c (f_of_Z 1))) (f_of_Z 1)) (f_of_Z 1)) in
  let constant :=
    f_of_d (ddiv (dmul (d_of_f (f_of_Z 4))
                       (S754_finite false 7074237752028440 (-51)))
                 (d_of_Z 6)) in
  let contributions :=
    filter (selected [1; 1]%Z) (seq 0 (Z.to_nat 2)) ≫= fun i =>
    seq 0 (Z.to_nat 6) ≫= fun j =>
      let p := centered pair_frame axis_points i j (unit_radii !!! i) in
      if exposed dot3_in_order pair_frame unit_radii
                 (neighbors dot3_in_order pair_frame unit_radii 2 i) p
         && in_bounds [3; 3; 3]%Z (coord (v0 p)) (coord (v1 p)) (coord (v2 p))
      then [(Z.to_nat (int_grid_index [3; 3; 3]%Z (coord (v0 p))
                                      (coord (v1 p)) (coord (v2 p))),
             fmul (fmul constant (unit_radii !!! i)) (unit_radii !!! i))]
      else [] in
  (exists nb' cb' grid,
     asa_frame dot3_in_order pair_frame 2 unit_radii axis_points 6
               [0; 0]%Z (replicate 18 f_zero) [1; 1]%Z
               used_grid [3; 3; 3]%Z (f_of_Z 1) = Done (nb', cb', grid) /\
     length grid = Z.to_nat (int_total_grid_points [3; 3; 3]%Z) /\
     forall c, c < Z.to_nat (int_total_grid_points [3; 3; 3]%Z) ->
       grid !!! c = foldl fadd f_zero (values_at c contributions)) /\
  (forall p constant' atom_radius_i g,
     length g = Z.to_nat (int_total_grid_points [3; 3; 3]%Z) ->
     let grid_index :=
       Z.to_nat (int_grid_index [3; 3; 3]%Z (coord (v0 p)) (coord (v1 p))
                                (coord (v2 p))) in
     deposit [3; 3; 3]%Z (f_of_Z 1) constant' atom_radius_i p g
     = Done (if in_bounds [3; 3; 3]%Z (coord (v0 p)) (coord (v1 p))
                          (coord (v2 p))
             then <[grid_index :=
                      fadd (g !!! grid_index)
                           (fmul (fmul constant' atom_radius_i)
                                 atom_radius_i)]> g
             else g)) /\
  (forall s m e, (e < 0)%Z ->
     exists q : Z,
       froundf (S754_finite s m e)
       = binary_normalize 24 128 (cond_Zopp s q) 0 s /\
       (2 * q * 2 ^ (- e) - 2 ^ (- e) <= 2 * Z.pos m
          < 2 * q * 2 ^ (- e) + 2 ^ (- e))%Z) /\
  (forall s m e, (0 <= e)%Z -> froundf (S754_finite s m e) = S754_finite s m e).
Proof.
  assert (~ frame_aborts dot3_in_order pair_frame 2 [1; 1]%Z) as Hab
    by by_evaluation.
  do 4 (split; [by_evaluation|]). split; [exact Hab|].
  apply (exposed_points_accumulate dot3_in_order); [by_evaluation..|exact Hab].
Defined.



Lemma frames_are_independent_witness :
  let len := Z.to_nat (total_grid_points [3; 3; 3]%Z) in
  let grid f := frame_grid dot3_in_order f unit_radii
                           (sphere_point_set cos_taylor sin_taylor 6)
                           2 6 [1; 1]%Z [3; 3; 3]%Z (f_of_Z 1) in
  let fs := [pair_frame; apart_frame] in
  let p := [1; 0] in
  let aborts := Exists (fun f => frame_aborts dot3_in_order f 2 [1; 1]%Z) fs in
  run_fits_int (Z.of_nat (length fs)) 2 6 [3; 3; 3]%Z /\
  Forall (fun f => length f = 3 * Z.to_nat 2) fs /\
  length (used_grid ++ used_grid) = length fs * len /\
  length (replicate 54 f_zero) = length fs * len /\
  p ≡ₚ seq 0 (length fs) /\
  (forall k, k < length fs ->
     int_xyz_offset k 2 = (Z.of_nat k * 2 * 3)%Z /\
     int_out_offset k [3; 3; 3]%Z
     = (Z.of_nat k * total_grid_points [3; 3; 3]%Z)%Z /\
     int_total_grid_points [3; 3; 3]%Z = total_grid_points [3; 3; 3]%Z)
  /\ sasa dot3_in_order cos_taylor sin_taylor (Z.of_nat (length fs)) 2
          (concat fs) unit_radii 6 [1; 1]%Z (used_grid ++ used_grid)
          [3; 3; 3]%Z (f_of_Z 1) (fun _ => 0%Z) (fun _ => f_zero)
     = (if decide aborts then Exited else Done (concat (grid <$> fs)))
  /\ sasa dot3_in_order cos_taylor sin_taylor (Z.of_nat (length fs)) 2
          (concat ((fun t => fs !!! t) <$> p)) unit_radii 6 [1; 1]%Z
          (replicate 54 f_zero) [3; 3; 3]%Z (f_of_Z 1)
          (fun _ => 5%Z) (fun _ => f_of_Z 3)
     = (if decide aborts then Exited
        else Done (concat ((fun t => grid (fs !!! t)) <$> p)))
  /\ Forall (fun g => length g = len) (grid <$> fs).
Proof.
  cbv zeta.
  assert ([1; 0] ≡ₚ seq 0 (length [pair_frame; apart_frame])) as Hp
    by apply perm_swap.
  split; [by_evaluation|].
  split; [by_evaluation|]. split; [by_evaluation|]. split; [by_evaluation|].
  split; [exact Hp|].
  apply (frames_are_independent dot3_in_order cos_taylor sin_taylor);
    [by_evaluation..|exact Hp].
Defined.

(** On a grid of 1024 x 1024 x 1024 cells, whose size fits an [int], the
    offset [i*total_grid_points] of line 217 wraps for the third frame: the
    slice handed to [asa_frame] for frame 2 starts 2^31 cells before [out]
    and not 2^31 cells into it. *)
Lemma third_frame_offset_wraps :
  grid_fits_int large_counts /\
  int_total_grid_points large_counts = total_grid_points large_counts /\
  total_grid_points large_counts = (2 ^ 30)%Z /\
  int_out_offset 1 large_counts = (1 * total_grid_points large_counts)%Z /\
  int_out_offset 2 large_counts = int_min /\
  (int_out_offset 2 large_counts < 0 < 2 * total_grid_points large_counts)%Z.
Proof. repeat (split; [by_evaluation|]). by_evaluation. Qed.

Lemma unselected_atom_is_skipped_but_scanned_witness :
  [1; 0]%Z !!! 1 = 0%Z /\
  (atom_body dot3_in_order pair_frame unit_radii axis_points 2 6 [1; 0]%Z
             [3; 3; 3]%Z (f_of_Z 1) (area_constant 6) 1
             ([0; 0]%Z, replicate 18 f_zero, used_grid)
   = Done ([0; 0]%Z, replicate 18 f_zero, used_grid)
   /\ forall i' neighbor_indices,
        i' <> 1 -> 1 < Z.to_nat 2 ->
        Z.to_nat 2 <= length neighbor_indices ->
        let scan :=
          for_range (Z.to_nat 2)
            (neighbor_body dot3_in_order pair_frame unit_radii i'
                           (unit_radii !!! i') (load3 pair_frame i'))
            (neighbor_indices, 0) in
        (coincident dot3_in_order pair_frame i' 1 = true -> scan = Exited) /\
        (~ scan_aborts dot3_in_order pair_frame 2 i' ->
         exists nb' n_neighbor_indices,
           scan = Done (nb', n_neighbor_indices) /\
           (Z.of_nat 1 ∈ take n_neighbor_indices nb'
            <-> within_cutoff dot3_in_order pair_frame unit_radii i' 1 = true))).
Proof.
  split; [by_evaluation|].
  apply (unselected_atom_is_skipped_but_scanned dot3_in_order). by_evaluation.
Defined.



(** No sphere point and a spacing of zero: [sasa] runs the frame and returns
    its grid.  So it does with six sphere points and a spacing of -1, where
    every point falls outside the grid.  And with a radius array of three
    entries and a mask of four for two atoms the run returns what it
    returns for arrays of two entries. *)
Lemma sasa_accepts_invalid_configuration :
  sasa dot3_in_order cos_taylor sin_taylor 1 2 pair_frame unit_radii 0 [1; 1]%Z
       used_grid [3; 3; 3]%Z f_zero (fun _ => 0%Z) (fun _ => f_zero)
  = Done (replicate 27 f_zero)
  /\ sasa dot3_in_order cos_taylor sin_taylor 1 2 pair_frame unit_radii 6
          [1; 1]%Z used_grid [3; 3; 3]%Z (f_of_Z (-1))
          (fun _ => 0%Z) (fun _ => f_zero)
     = Done (replicate 27 f_zero)
  /\ length (unit_radii ++ [f_of_Z 9]) <> length [1; 1; 0; 5]%Z
  /\ length (unit_radii ++ [f_of_Z 9]) <> Z.to_nat 2
  /\ sasa dot3_in_order cos_taylor sin_taylor 1 2 pair_frame
          (unit_radii ++ [f_of_Z 9]) 6 [1; 1; 0; 5]%Z used_grid [3; 3; 3]%Z
          (f_of_Z 1) (fun _ => 0%Z) (fun _ => f_zero)
     = Done (frame_grid dot3_in_order pair_frame unit_radii
               (sphere_point_set cos_taylor sin_taylor 6) 2 6 [1; 1]%Z
               [3; 3; 3]%Z (f_of_Z 1)).
Proof.
  split; [vm_compute; reflexivity|]. split; [vm_compute; reflexivity|].
  split; [by_evaluation|]. split; [by_evaluation|].
  vm_compute. reflexivity.
Qed.

Lemma sasa_runs_every_configuration_witness :
  run_fits_int 1 2 0 [3; 3; 3]%Z /\
  3 <= length [3; 3; 3]%Z /\
  Z.to_nat 1 * (3 * Z.to_nat 2) <= length pair_frame /\
  Z.to_nat 2 <= length (unit_radii ++ [f_of_Z 9]) /\
  Z.to_nat 2 <= length [1; 1; 0; 5]%Z /\
  Z.to_nat 1 * Z.to_nat (total_grid_points [3; 3; 3]%Z) <= length used_grid /\
  sasa dot3_in_order cos_taylor sin_taylor 1 2 pair_frame
       (unit_radii ++ [f_of_Z 9]) 0 [1; 1; 0; 5]%Z
       used_grid [3; 3; 3]%Z f_zero (fun _ => 0%Z) (fun _ => f_zero)
  = (if decide (sasa_aborts dot3_in_order 1 2 pair_frame [1; 1; 0; 5]%Z)
     then Exited
     else Done (sasa_grids dot3_in_order cos_taylor sin_taylor 1 2 pair_frame
                           (unit_radii ++ [f_of_Z 9]) 0 [1; 1; 0; 5]%Z
                           [3; 3; 3]%Z f_zero
                ++ drop (Z.to_nat 1
                         * Z.to_nat (total_grid_points [3; 3; 3]%Z)) used_grid))
  /\ ((0 <= 0)%Z ->
      sasa_grids dot3_in_order cos_taylor sin_taylor 1 2 pair_frame
                 (unit_radii ++ [f_of_Z 9]) 0 [1; 1; 0; 5]%Z [3; 3; 3]%Z f_zero
      = replicate (Z.to_nat 1 * Z.to_nat (total_grid_points [3; 3; 3]%Z))
                  f_zero).
Proof.
  do 6 (split; [by_evaluation|]).
  apply (sasa_runs_every_configuration dot3_in_order cos_taylor sin_taylor);
    by_evaluation.
Defined.

Lemma grid_stores_in_range_witness :
  grid_fits_int [3; 3; 3]%Z /\
  length used_grid = Z.to_nat (int_total_grid_points [3; 3; 3]%Z) /\
  int_total_grid_points [3; 3; 3]%Z
  = ([3; 3; 3]%Z !!! 0%nat * [3; 3; 3]%Z !!! 1%nat * [3; 3; 3]%Z !!! 2%nat)%Z
  /\ for_range (Z.to_nat (int_total_grid_points [3; 3; 3]%Z))
               (fun i g => store OutGrid g i f_zero) used_grid
     = Done (replicate (Z.to_nat (int_total_grid_points [3; 3; 3]%Z)) f_zero)
  /\ (forall ix iy iz,
        in_bounds [3; 3; 3]%Z ix iy iz = true ->
        int_grid_index [3; 3; 3]%Z ix iy iz
        = (iz * [3; 3; 3]%Z !!! 1%nat * [3; 3; 3]%Z !!! 0%nat
           + iy * [3; 3; 3]%Z !!! 0%nat + ix)%Z
        /\ (0 <= int_grid_index [3; 3; 3]%Z ix iy iz
              <= int_total_grid_points [3; 3; 3]%Z - 1)%Z)
  /\ (forall p constant atom_radius_i g,
        length g = Z.to_nat (int_total_grid_points [3; 3; 3]%Z) ->
        exists g', deposit [3; 3; 3]%Z (f_of_Z 1) constant atom_radius_i p g
                   = Done g' /\ length g' = length g)
  /\ faults_on OutGrid
       (asa_frame dot3_in_order pair_frame 2 unit_radii axis_points 6
                  [0; 0]%Z (replicate 18 f_zero) [1; 1]%Z
                  used_grid [3; 3; 3]%Z (f_of_Z 1)) = false.
Proof.
  split; [by_evaluation|]. split; [by_evaluation|].
  apply (grid_stores_in_range dot3_in_order); by_evaluation.
Defined.

(** On a grid of 65536 x 65536 x 1 cells the product of line 50 wraps to 0,
    so the first loop clears nothing, and the voxel (0, 32768, 0), which
    passes the test of line 135, gets the cell index -2^31: the store of
    line 143 lies outside every grid. *)
Lemma huge_grid_index_leaves_the_grid :
  (0 < huge_counts !!! 0%nat /\ 0 < huge_counts !!! 1%nat
   /\ 0 < huge_counts !!! 2%nat)%Z /\
  voxel_coord (f_of_Z 32768) (f_of_Z 1) = 32768%Z /\
  in_bounds huge_counts 0 32768 0 = true /\
  int_total_grid_points huge_counts = 0%Z /\
  int_grid_index huge_counts 0 32768 0 = int_min /\
  (int_grid_index huge_counts 0 32768 0 < 0)%Z /\
  forall (g : list float) v,
    store_z OutGrid g (int_grid_index huge_counts 0 32768 0) v = Fault OutGrid.
Proof.
  split; [by_evaluation|]. split; [by_evaluation|]. split; [by_evaluation|].
  split; [by_evaluation|]. split; [by_evaluation|]. split; [by_evaluation|].
  intros g v. unfold store_z.
  replace (int_grid_index huge_counts 0 32768 0) with int_min
    by (vm_compute; reflexivity).
  reflexivity.
Qed.

(** ** The further properties on concrete inputs *)






Lemma cell_index_decodes_witness :
  let p := Fvec4 (f_of_Z 1) (f_of_Z 2) (f_of_Z 0) (f_of_Z 0) in
  grid_fits_int [3; 3; 3]%Z /\
  voxel [3; 3; 3]%Z (f_of_Z 1) p = Some 7 /\
  let nx := [3; 3; 3]%Z !!! 0%nat in
  let ny := [3; 3; 3]%Z !!! 1%nat in
  let index := int_grid_index [3; 3; 3]%Z (voxel_coord (v0 p) (f_of_Z 1))
                 (voxel_coord (v1 p) (f_of_Z 1))
                 (voxel_coord (v2 p) (f_of_Z 1)) in
  index = Z.of_nat 7
  /\ (index mod nx = voxel_coord (v0 p) (f_of_Z 1) /\
      (index / nx) mod ny = voxel_coord (v1 p) (f_of_Z 1) /\
      index / (nx * ny) = voxel_coord (v2 p) (f_of_Z 1))%Z
  /\ forall p', voxel [3; 3; 3]%Z (f_of_Z 1) p' = Some 7 ->
       voxel_coord (v0 p') (f_of_Z 1) = voxel_coord (v0 p) (f_of_Z 1) /\
       voxel_coord (v1 p') (f_of_Z 1) = voxel_coord (v1 p) (f_of_Z 1) /\
       voxel_coord (v2 p') (f_of_Z 1) = voxel_coord (v2 p) (f_of_Z 1).
Proof.
  cbv zeta. split; [by_evaluation|]. split; [by_evaluation|].
  apply (cell_index_decodes [3; 3; 3]%Z (f_of_Z 1)
           (Fvec4 (f_of_Z 1) (f_of_Z 2) (f_of_Z 0) (f_of_Z 0)) 7);
    by_evaluation.
Defined.


Lemma sasa_batches_compose_witness :
  run_fits_int (Z.of_nat (length ([pair_frame] ++ [apart_frame]))) 2 6
               [3; 3; 3]%Z /\
  Forall (fun f => length f = 3 * Z.to_nat 2) [pair_frame] /\
  Forall (fun f => length f = 3 * Z.to_nat 2) [apart_frame] /\
  length used_grid
  = length [pair_frame] * Z.to_nat (total_grid_points [3; 3; 3]%Z) /\
  length (replicate 27 f_zero)
  = length [apart_frame] * Z.to_nat (total_grid_points [3; 3; 3]%Z) /\
  length (used_grid ++ used_grid)
  = length ([pair_frame] ++ [apart_frame])
    * Z.to_nat (total_grid_points [3; 3; 3]%Z) /\
  sasa dot3_in_order cos_taylor sin_taylor
       (Z.of_nat (length ([pair_frame] ++ [apart_frame]))) 2
       (concat ([pair_frame] ++ [apart_frame])) unit_radii 6 [1; 1]%Z
       (used_grid ++ used_grid) [3; 3; 3]%Z (f_of_Z 1)
       (fun _ => 0%Z) (fun _ => f_zero)
  = (g1 ← sasa dot3_in_order cos_taylor sin_taylor
               (Z.of_nat (length [pair_frame])) 2 (concat [pair_frame])
               unit_radii 6 [1; 1]%Z used_grid [3; 3; 3]%Z (f_of_Z 1)
               (fun _ => 0%Z) (fun _ => f_zero);
     g2 ← sasa dot3_in_order cos_taylor sin_taylor
               (Z.of_nat (length [apart_frame])) 2 (concat [apart_frame])
               unit_radii 6 [1; 1]%Z (replicate 27 f_zero) [3; 3; 3]%Z
               (f_of_Z 1) (fun _ => 0%Z) (fun _ => f_zero);
     Done (g1 ++ g2))
  /\ run_fits_int (Z.of_nat (length [pair_frame])) 2 6 [3; 3; 3]%Z
  /\ run_fits_int (Z.of_nat (length [apart_frame])) 2 6 [3; 3; 3]%Z
  /\ forall k, k < length ([pair_frame] ++ [apart_frame]) ->
       int_xyz_offset k 2 = (Z.of_nat k * 2 * 3)%Z /\
       int_out_offset k [3; 3; 3]%Z
       = (Z.of_nat k * total_grid_points [3; 3; 3]%Z)%Z.
Proof.
  do 6 (split; [by_evaluation|]).
  apply (sasa_batches_compose dot3_in_order cos_taylor sin_taylor);
    by_evaluation.
Defined.

Lemma asa_frame_reads_only_its_ranges_witness :
  Z.to_nat 2 <= length [0; 0]%Z /\
  3 * Z.to_nat 6 <= length (replicate 18 f_zero) /\
  length used_grid = Z.to_nat (total_grid_points [3; 3; 3]%Z) /\
  (forall k, k < 3 * Z.to_nat 2 ->
             pair_frame !!! k = (pair_frame ++ [f_of_Z 5]) !!! k) /\
  (forall i, i < Z.to_nat 2 ->
             unit_radii !!! i = (unit_radii ++ [f_of_Z 9]) !!! i) /\
  (forall k, k < 3 * Z.to_nat 6 ->
             axis_points !!! k = (axis_points ++ [f_of_Z 3]) !!! k) /\
  (forall i, i < Z.to_nat 2 ->
             [1; 0]%Z !!! i = 0%Z <-> [-3; 0; 4]%Z !!! i = 0%Z) /\
  (fun st => st.2) <$>
    asa_frame dot3_in_order pair_frame 2 unit_radii axis_points 6 [0; 0]%Z
              (replicate 18 f_zero) [1; 0]%Z used_grid [3; 3; 3]%Z (f_of_Z 1)
  = (fun st => st.2) <$>
    asa_frame dot3_in_order (pair_frame ++ [f_of_Z 5]) 2
              (unit_radii ++ [f_of_Z 9]) (axis_points ++ [f_of_Z 3]) 6
              [0; 0]%Z (replicate 18 f_zero) [-3; 0; 4]%Z used_grid
              [3; 3; 3]%Z (f_of_Z 1).
Proof.
  assert (forall k, k < 3 * Z.to_nat 2 ->
            pair_frame !!! k = (pair_frame ++ [f_of_Z 5]) !!! k) as Hframe
    by (intros k Hk; do 6 (destruct k as [|k]; [reflexivity|]); lia).
  assert (forall i, i < Z.to_nat 2 ->
            unit_radii !!! i = (unit_radii ++ [f_of_Z 9]) !!! i) as Hradii
    by (intros i Hi; do 2 (destruct i as [|i]; [reflexivity|]); lia).
  assert (forall k, k < 3 * Z.to_nat 6 ->
            axis_points !!! k = (axis_points ++ [f_of_Z 3]) !!! k) as Hpoints
    by (intros k Hk; do 18 (destruct k as [|k]; [reflexivity|]); lia).
  assert (forall i, i < Z.to_nat 2 ->
            [1; 0]%Z !!! i = 0%Z <-> [-3; 0; 4]%Z !!! i = 0%Z) as Hmask
    by (intros i Hi; do 2 (destruct i as [|i]; [by_evaluation|]); lia).
  do 3 (split; [by_evaluation|]).
  split; [exact Hframe|]. split; [exact Hradii|]. split; [exact Hpoints|].
  split; [exact Hmask|].
  apply (asa_frame_reads_only_its_ranges dot3_in_order);
    [by_evaluation..|exact Hframe|exact Hradii|exact Hpoints|exact Hmask].
Defined.

Lemma atom_outside_cutoff_has_no_effect_witness :
  [1; 1]%Z !!! 0 <> 0%Z /\
  Z.to_nat 2 <= length [0; 0]%Z /\
  3 * Z.to_nat 6 <= length (replicate 18 f_zero) /\
  length used_grid = Z.to_nat (total_grid_points [3; 3; 3]%Z) /\
  0 < Z.to_nat 2 /\
  (forall k, k < Z.to_nat 2 -> k <> 1 ->
             load3 apart_frame k = load3 moved_frame k) /\
  0 <> 1 /\
  within_cutoff dot3_in_order apart_frame unit_radii 0 1 = false /\
  within_cutoff dot3_in_order moved_frame unit_radii 0 1 = false /\
  coincident dot3_in_order apart_frame 0 1 = false /\
  coincident dot3_in_order moved_frame 0 1 = false /\
  (fun st => st.2) <$>
    atom_body dot3_in_order apart_frame unit_radii axis_points 2 6 [1; 1]%Z
              [3; 3; 3]%Z (f_of_Z 1) (area_constant 6) 0
              ([0; 0]%Z, replicate 18 f_zero, used_grid)
  = (fun st => st.2) <$>
    atom_body dot3_in_order moved_frame unit_radii axis_points 2 6 [1; 1]%Z
              [3; 3; 3]%Z (f_of_Z 1) (area_constant 6) 0
              ([0; 0]%Z, replicate 18 f_zero, used_grid).
Proof.
  assert (forall k, k < Z.to_nat 2 -> k <> 1 ->
            load3 apart_frame k = load3 moved_frame k) as Hsame
    by (intros [|[|k]] Hk Hne; [reflexivity|by destruct Hne|lia]).
  do 5 (split; [by_evaluation|]). split; [exact Hsame|].
  do 5 (split; [by_evaluation|]).
  apply (atom_outside_cutoff_has_no_effect dot3_in_order) with (a := 1);
    [by_evaluation|by_evaluation|by_evaluation|by_evaluation|by_evaluation|
     exact Hsame|by_evaluation..].
Defined.
